(** * Definedness, liveness and phi-requirement analyses of pyston

    A shallow embedding of [src/analysis/function_analysis.cpp]: the
    read/write classification of a basic block ([LivenessBBVisitor]), the
    liveness query ([LivenessAnalysis::isLiveAtEnd]), the definedness
    analysis ([DefinednessBBAnalyzer], [DefinednessVisitor],
    [DefinednessAnalysis]) and the phi-requirement analysis ([PhiAnalysis]),
    followed by the properties proved about them.

    Conventions.
    - A [CFGBlock*] is the position of the block in [cfg->blocks]; the
      graph is the heap those pointers point into, and code that writes
      through a pointer into the graph returns the updated graph.
    - [assert]/[ASSERT]/[abort] are the [Fatal] outcome of the [result]
      monad; a [while] loop is a fuel-indexed loop whose fuel exhaustion is
      the separate outcome [OutOfFuel].
    - [std::unordered_map] is [gmap], [std::unordered_set] is [gset];
      [operator[]] on a map inserts a default value when the key is absent,
      and the embedding returns the updated table. *)

From stdpp Require Import gmap strings list fin_maps fin_sets.

#[global] Set Warnings "-clear-no-such-hyp".


(** ** Outcomes *)

(** The places where the program stops fatally. *)
Inductive fatal : Type :=
| assert_ctx_type           (* LivenessBBVisitor::visit_name: assert(0); abort() *)
| assert_merge_from         (* merge: assert(from != Undefined) *)
| assert_merge_into         (* merge: assert(into != Undefined) *)
| assert_mergeBlank         (* mergeBlank: assert(into != Undefined) *)
| assert_unknown_target     (* DefinednessVisitor::_doSet: ASSERT(0, "Unknown type ...") *)
| abort_unhandled_node      (* ASTVisitor: a visit_* that DefinednessVisitor does not override *)
| assert_has_successor      (* isPotentiallyUndefinedAfter: assert(successors.size() > 0) *)
| assert_dlevel             (* isPotentiallyUndefinedAfter: ASSERT(dlevel != Undefined) *)
| assert_has_predecessor    (* PhiAnalysis: assert(block->predecessors.size()) *)
| bad_block_pointer.        (* a CFGBlock* that does not point into cfg->blocks *)

Inductive result (A : Type) : Type :=
| Ok (a : A)
| Fatal (f : fatal)
| OutOfFuel.
Arguments Ok {A} a.
Arguments Fatal {A} f.
Arguments OutOfFuel {A}.

Definition result_bind {A B} (f : A → result B) (m : result A) : result B :=
  match m with
  | Ok a => f a
  | Fatal e => Fatal e
  | OutOfFuel => OutOfFuel
  end.

#[global] Instance result_mbind : MBind result := @result_bind.
#[global] Instance result_mret : MRet result := @Ok.

Section foldM.
Context {A B : Type} (f : B → A → result B).

(** A [for] loop whose body can stop the program. *)
Fixpoint foldM (l : list A) (b : B) : result B :=
  match l with
  | [] => Ok b
  | x :: l' => b' ← f b x; foldM l' b'
  end.
End foldM.

(** ** Syntax nodes and the control-flow graph *)

(** Modelled from the spec: the syntax-node classes of [core/ast.h] and
    their [accept] methods are not among the sources.  The nodes below
    carry the fields [function_analysis.cpp] reads ([id], [ctx_type],
    [name], [asname], [names], [targets], [elts], [args], [kwarg],
    [vararg]); [AST_OtherExpr] and [AST_OtherStmt] stand for every node
    kind that neither visitor overrides, with their sub-expressions. *)
Inductive AST_ctx : Type := Load | Store | Del | Param.

#[warnings="-register-all"]
Inductive AST_expr : Type :=
| AST_Name (id : string) (ctx_type : AST_ctx)
| AST_Attribute (value : AST_expr) (attr : string)
| AST_Subscript (value slice : AST_expr)
| AST_Tuple (elts : list AST_expr)
| AST_OtherExpr (operands : list AST_expr).

Record AST_alias : Type := mk_alias { alias_name : string; asname : string }.

Inductive AST_stmt : Type :=
| AST_Assign (targets : list AST_expr) (value : AST_expr)
| AST_Branch (test : AST_expr)
| AST_ClassDef (name : string)
| AST_Expr (value : AST_expr)
| AST_FunctionDef (name : string)
| AST_Global (names : list string)
| AST_Import (names : list AST_alias)
| AST_Jump
| AST_Pass
| AST_Print (dest : option AST_expr) (values : list AST_expr)
| AST_Return (value : option AST_expr)
| AST_OtherStmt (operands : list AST_expr).

Record AST_arguments : Type := mk_arguments {
  args : list AST_expr;
  kwarg : option AST_expr;
  vararg : string
}.

(** [core/cfg.h]: a block knows its index, its statements and its
    neighbours; neighbours are pointers, here positions in [cfg->blocks]. *)
Record CFGBlock : Type := mk_block {
  idx : nat;
  body : list AST_stmt;
  predecessors : list nat;
  successors : list nat
}.

(** [cfg->blocks] *)
Abbreviation CFG := (list CFGBlock).

Definition deref (cfg : CFG) (block : nat) : result CFGBlock :=
  match cfg !! block with
  | Some b => Ok b
  | None => Fatal bad_block_pointer
  end.

(** ** LivenessBBVisitor *)

Record LivenessBBVisitor : Type := mk_visitor {
  _loads : gset string;
  _stores : gset string
}.

Definition LivenessBBVisitor_new : LivenessBBVisitor :=
  {| _loads := ∅; _stores := ∅ |}.

Definition _doLoad (name : string) (v : LivenessBBVisitor) : LivenessBBVisitor :=
  if decide (name ∈ _stores v) then v
  else {| _loads := {[name]} ∪ _loads v; _stores := _stores v |}.

Definition _doStore (name : string) (v : LivenessBBVisitor) : LivenessBBVisitor :=
  if decide (name ∈ _loads v) then v
  else {| _loads := _loads v; _stores := {[name]} ∪ _stores v |}.

Definition visit_name (id : string) (ctx_type : AST_ctx) (v : LivenessBBVisitor)
  : result LivenessBBVisitor :=
  match ctx_type with
  | Load => Ok (_doLoad id v)
  | Store => Ok (_doStore id v)
  | _ => Fatal assert_ctx_type
  end.

(** [node->accept(&visitor)] for a [LivenessBBVisitor].  The visitor
    derives from [NoopASTVisitor], so a node it does not override is
    entered and its children are visited in order; [visit_name],
    [visit_classdef] and [visit_functiondef] return [true], which ends the
    descent.  Modelled from the spec: the child order of [accept] (an
    assignment visits its value before its targets, a subscript its value
    before its slice, a print its destination before its values). *)
Fixpoint accept_expr (e : AST_expr) (v : LivenessBBVisitor) : result LivenessBBVisitor :=
  match e with
  | AST_Name id ctx_type => visit_name id ctx_type v
  | AST_Attribute value _ => accept_expr value v
  | AST_Subscript value slice => v' ← accept_expr value v; accept_expr slice v'
  | AST_Tuple elts => foldM (λ v e, accept_expr e v) elts v
  | AST_OtherExpr operands => foldM (λ v e, accept_expr e v) operands v
  end.

Definition accept_exprs (l : list AST_expr) (v : LivenessBBVisitor) : result LivenessBBVisitor :=
  foldM (λ v e, accept_expr e v) l v.

Definition accept_opt (o : option AST_expr) (v : LivenessBBVisitor) : result LivenessBBVisitor :=
  match o with
  | Some e => accept_expr e v
  | None => Ok v
  end.

Definition accept_stmt (v : LivenessBBVisitor) (s : AST_stmt) : result LivenessBBVisitor :=
  match s with
  | AST_Assign targets value => v' ← accept_expr value v; accept_exprs targets v'
  | AST_Branch test => accept_expr test v
  | AST_ClassDef name => Ok (_doStore name v)
  | AST_Expr value => accept_expr value v
  | AST_FunctionDef name => Ok (_doStore name v)
  | AST_Global _ => Ok v
  | AST_Import _ => Ok v
  | AST_Jump => Ok v
  | AST_Pass => Ok v
  | AST_Print dest values => v' ← accept_opt dest v; accept_exprs values v'
  | AST_Return value => accept_opt value v
  | AST_OtherStmt operands => accept_exprs operands v
  end.

(** The loop over [thisblock->body] with a fresh visitor. *)
Definition classify (b : CFGBlock) : result LivenessBBVisitor :=
  foldM accept_stmt (body b) LivenessBBVisitor_new.

(** ** LivenessAnalysis::isLiveAtEnd *)

Fixpoint isLiveAtEnd_loop (fuel : nat) (cfg : CFG) (name : string)
    (visited : gset nat) (q : list nat) : result bool :=
  match fuel with
  | O => OutOfFuel
  | S fuel =>
    match q with
    | [] => Ok false
    | thisblock :: q =>
      if decide (thisblock ∈ visited) then isLiveAtEnd_loop fuel cfg name visited q
      else
        let visited := {[thisblock]} ∪ visited in
        b ← deref cfg thisblock;
        visitor ← classify b;
        if decide (name ∈ _loads visitor) then Ok true
        else if decide (name ∈ _stores visitor)
             then isLiveAtEnd_loop fuel cfg name visited q
             else isLiveAtEnd_loop fuel cfg name visited (q ++ successors b)
    end
  end.

Definition isLiveAtEnd (fuel : nat) (cfg : CFG) (name : string) (block : nat) : result bool :=
  b ← deref cfg block;
  if decide (length (successors b) = 0) then Ok false
  else isLiveAtEnd_loop fuel cfg name ∅ (successors b).

(** ** Definedness: the lattice and the block analyzer *)

(** [DefinednessAnalysis::DefinitionLevel] *)
Inductive DefinitionLevel : Type := Undefined | Defined | PotentiallyDefined.

#[global] Instance DefinitionLevel_eq_dec : EqDecision DefinitionLevel.
Proof. solve_decision. Defined.

(** [BBAnalyzer<DefinitionLevel>::Map] *)
Abbreviation Map := (gmap string DefinitionLevel).
(** [BBAnalyzer<DefinitionLevel>::AllMap], keyed by block pointer *)
Abbreviation AllMap := (gmap nat (gmap string DefinitionLevel)).

Module DefinednessBBAnalyzer.

Definition merge (from into : DefinitionLevel) : result DefinitionLevel :=
  if decide (from = Undefined) then Fatal assert_merge_from
  else if decide (into = Undefined) then Fatal assert_merge_into
  else if decide (from = PotentiallyDefined ∨ into = PotentiallyDefined)
       then Ok PotentiallyDefined
       else Ok Defined.

Definition mergeBlank (into : DefinitionLevel) : result DefinitionLevel :=
  if decide (into = Undefined) then Fatal assert_mergeBlank
  else Ok PotentiallyDefined.

End DefinednessBBAnalyzer.

(** ** DefinednessVisitor *)

(** [_doSet] on a name *)
Definition _doSet_name (s : string) (state : Map) : Map := <[s := Defined]> state.

(** [_doSet] on a target node *)
Fixpoint _doSet (t : AST_expr) (state : Map) : result Map :=
  match t with
  | AST_Attribute _ _ => Ok state
  | AST_Name id _ => Ok (_doSet_name id state)
  | AST_Subscript _ _ => Ok state
  | AST_Tuple elts => foldM (λ st e, _doSet e st) elts state
  | AST_OtherExpr _ => Fatal assert_unknown_target
  end.

(** One round of the loop of [visit_import].  [name] is a reference to
    [alias->name], so the assignment [name = alias->asname] writes the
    node: the alias comes back with its [name] field overwritten. *)
Definition visit_import_round (st : Map * list AST_alias) (alias : AST_alias)
  : result (Map * list AST_alias) :=
  let alias' :=
    if decide (String.length (asname alias) ≠ 0)
    then {| alias_name := asname alias; asname := asname alias |}
    else alias in
  Ok (_doSet_name (alias_name alias') st.1, st.2 ++ [alias']).

Definition visit_import (names : list AST_alias) (state : Map)
  : result (Map * list AST_alias) :=
  foldM visit_import_round names (state, []).

Definition visit_assign (targets : list AST_expr) (state : Map) : result Map :=
  foldM (λ st t, _doSet t st) targets state.

Definition visit_arguments (node : AST_arguments) (state : Map) : result Map :=
  st1 ← match kwarg node with
        | Some k => _doSet k state
        | None => Ok state
        end;
  let st2 := if decide (String.length (vararg node) ≠ 0) then _doSet_name (vararg node) st1 else st1 in
  foldM (λ st a, _doSet a st) (args node) st2.

(** [stmt->accept(&visitor)] for a [DefinednessVisitor]: every override
    returns [true], so no child is visited; a node kind without an
    override reaches the base class, which aborts.  The statement comes
    back because [visit_import] writes into it. *)
Definition visit_stmt (st : Map * list AST_stmt) (s : AST_stmt)
  : result (Map * list AST_stmt) :=
  match s with
  | AST_Branch _ | AST_Expr _ | AST_Global _ | AST_Jump | AST_Pass
  | AST_Print _ _ | AST_Return _ => Ok (st.1, st.2 ++ [s])
  | AST_ClassDef name => Ok (_doSet_name name st.1, st.2 ++ [s])
  | AST_FunctionDef name => Ok (_doSet_name name st.1, st.2 ++ [s])
  | AST_Import names =>
      r ← visit_import names st.1;
      Ok (r.1, st.2 ++ [AST_Import r.2])
  | AST_Assign targets _ =>
      state ← visit_assign targets st.1;
      Ok (state, st.2 ++ [s])
  | AST_OtherStmt _ => Fatal abort_unhandled_node
  end.

(** [DefinednessBBAnalyzer::processBB]: the updated map and the block as
    the visit leaves it.  (It is declared in the class and defined after
    [DefinednessVisitor], as here.) *)
Definition processBB (arguments : option AST_arguments) (starting : Map) (block : CFGBlock)
  : result (Map * CFGBlock) :=
  r ← foldM visit_stmt (body block) (starting, []);
  state ← match arguments with
          | Some a => if decide (idx block = 0) then visit_arguments a r.1 else Ok r.1
          | None => Ok r.1
          end;
  Ok (state, {| idx := idx block; body := r.2;
                predecessors := predecessors block; successors := successors block |}).

(** ** The fixed-point engine *)

(** Modelled from the spec: [computeFixedPoint] and the [BBAnalyzer]
    interface of [analysis/fpc.h] are not among the sources.  The spec
    (4.3) gives the contract: the engine is handed the graph, a per-block
    local transfer ([processBB]), a [merge] of two already-computed values
    and a [mergeBlank] for a contribution that is still blank; it iterates
    block transfers in forward order, feeds each block's exit state into
    its successors' entry states through [merge]/[mergeBlank], repeats
    until no block's entry state changes, and returns every block's entry
    map.  Here: a worklist seeded with block 0 and an empty entry map; the
    lowest-numbered block is taken first; a successor reached for the first
    time takes the exit state as it is (scenario 1 of the spec: a name
    assigned in block 0 of a straight line is [Defined] in the last block);
    otherwise a name both sides record goes through [merge], a name only one
    side records goes through [mergeBlank]; a successor whose entry map
    changed is queued again. *)
Module fpc.

Record BBAnalyzer (T : Type) : Type := {
  merge : T → T → result T;
  mergeBlank : T → result T;
  processBB : gmap string T → CFGBlock → result (gmap string T * CFGBlock)
}.
Arguments merge {T} _ _ _.
Arguments mergeBlank {T} _ _.
Arguments processBB {T} _ _ _.

Section engine.
Context {T : Type} `{EqDecision T} (analyzer : BBAnalyzer T).

(** One name of the exit state [ending] fed into the entry map [next]. *)
Definition feed_entry (initial : bool) (next : gmap string T) (p : string * T)
  : result (gmap string T) :=
  match next !! p.1 with
  | None =>
      if initial then Ok (<[p.1 := p.2]> next)
      else v ← mergeBlank analyzer p.2; Ok (<[p.1 := v]> next)
  | Some into => v ← merge analyzer p.2 into; Ok (<[p.1 := v]> next)
  end.

(** One name of the entry map that the exit state [ending] does not record. *)
Definition blank_entry (ending : gmap string T) (next : gmap string T) (p : string * T)
  : result (gmap string T) :=
  match ending !! p.1 with
  | Some _ => Ok next
  | None => v ← mergeBlank analyzer p.2; Ok (<[p.1 := v]> next)
  end.

(** A loop over the entries of a map. *)
Definition for_each {S : Type} (body : S → string * T → result S)
    (m : gmap string T) (init : S) : result S :=
  map_fold (λ name level acc, s ← acc; body s (name, level)) (Ok init) m.

Definition feed (ending : gmap string T) (initial : bool) (next : gmap string T)
  : result (gmap string T) :=
  next1 ← for_each (feed_entry initial) ending next;
  for_each (blank_entry ending) next1 next1.

(** The worklist, lowest block first. *)
Fixpoint push (block : nat) (q : list nat) : list nat :=
  match q with
  | [] => [block]
  | b :: q' => if decide (block ≤ b) then block :: q else b :: push block q'
  end.

(** The exit state [ending] of a block reaches the successor [next_block]. *)
Definition propagate (ending : gmap string T) (st : gmap nat (gmap string T) * list nat)
    (next_block : nat) : result (gmap nat (gmap string T) * list nat) :=
  let initial := bool_decide (st.1 !! next_block = None) in
  let next := default ∅ (st.1 !! next_block) in
  next' ← feed ending initial next;
  let changed := initial || bool_decide (next' ≠ next) in
  Ok (<[next_block := next']> st.1, if changed then push next_block st.2 else st.2).

Fixpoint computeFixedPoint_loop (fuel : nat) (cfg : CFG)
    (states : gmap nat (gmap string T)) (q : list nat)
  : result (gmap nat (gmap string T) * CFG) :=
  match fuel with
  | O => OutOfFuel
  | S fuel =>
    match q with
    | [] => Ok (states, cfg)
    | block :: q =>
      b ← deref cfg block;
      let initial := default ∅ (states !! block) in
      r ← processBB analyzer initial b;
      let cfg := <[block := r.2]> cfg in
      st ← foldM (propagate r.1) (successors r.2) (states, q);
      computeFixedPoint_loop fuel cfg st.1 st.2
    end
  end.

Definition computeFixedPoint (fuel : nat) (cfg : CFG)
  : result (gmap nat (gmap string T) * CFG) :=
  _ ← deref cfg 0;
  computeFixedPoint_loop fuel cfg {[0 := ∅]} [0].
End engine.

End fpc.

(** [DefinednessBBAnalyzer(arguments)] as an analyzer for the engine. *)
Definition DefinednessBBAnalyzer_new (arguments : option AST_arguments)
  : fpc.BBAnalyzer DefinitionLevel :=
  {| fpc.merge := DefinednessBBAnalyzer.merge;
     fpc.mergeBlank := DefinednessBBAnalyzer.mergeBlank;
     fpc.processBB := processBB arguments |}.

(** ** DefinednessAnalysis *)

Record ScopeInfo : Type := { refersToGlobal : string → bool }.

(** [DefinednessAnalysis::RequiredSet] *)
Abbreviation RequiredSet := (gset string).

Record DefinednessAnalysis : Type := mk_definedness {
  results : gmap nat (gmap string DefinitionLevel);
  defined : gmap nat (gset string);
  scope_info : ScopeInfo
}.

(** The loop of the constructor over one block's map. *)
Definition required_of (scope_info : ScopeInfo) (m : gmap string DefinitionLevel) : gset string :=
  filter (λ name, refersToGlobal scope_info name = false) (dom m).

Definition DefinednessAnalysis_new (fuel : nat) (args : option AST_arguments) (cfg : CFG)
    (scope_info : ScopeInfo) : result (DefinednessAnalysis * CFG) :=
  r ← fpc.computeFixedPoint (DefinednessBBAnalyzer_new args) fuel cfg;
  Ok ({| results := r.1; defined := required_of scope_info <$> r.1; scope_info := scope_info |},
      r.2).

(** [results[block]] default-constructs the block's map when it is absent. *)
Definition isDefinedAt (name : string) (block : nat) (da : DefinednessAnalysis)
  : DefinitionLevel * DefinednessAnalysis :=
  let map := default ∅ (results da !! block) in
  let da' := {| results := <[block := map]> (results da);
                defined := defined da; scope_info := scope_info da |} in
  match map !! name with
  | None => (Undefined, da')
  | Some level => (level, da')
  end.

Definition getDefinedNamesAt (block : nat) (da : DefinednessAnalysis)
  : gset string * DefinednessAnalysis :=
  let set := default ∅ (defined da !! block) in
  (set, {| results := results da; defined := <[block := set]> (defined da);
           scope_info := scope_info da |}).

(** ** PhiAnalysis *)

Record PhiAnalysis : Type := mk_phi {
  definedness : DefinednessAnalysis;
  required_phis : gmap nat (gset string)
}.

(** The inner loop of the constructor: the names of [defined] that are
    live at the end of [block->predecessors[0]]. *)
Definition required_at (fuel : nat) (cfg : CFG) (pred0 : nat) (required : gset string)
    (name : string) : result (gset string) :=
  live ← isLiveAtEnd fuel cfg name pred0;
  Ok (if live : bool then {[name]} ∪ required else required).

(** One round of the loop over [cfg->blocks]. *)
Definition phi_block (fuel : nat) (cfg : CFG) (st : DefinednessAnalysis * gmap nat (gset string))
    (ib : nat * CFGBlock) : result (DefinednessAnalysis * gmap nat (gset string)) :=
  let block := ib.2 in
  if decide (length (predecessors block) < 2) then Ok st
  else
    let r := getDefinedNamesAt ib.1 st.1 in
    _ ← (if decide (size r.1 ≠ 0 ∧ length (predecessors block) = 0)
         then Fatal assert_has_predecessor else Ok ());
    pred0 ← match predecessors block !! 0 with
            | Some p => Ok p
            | None => Fatal bad_block_pointer
            end;
    required ← foldM (required_at fuel cfg pred0) (elements r.1) ∅;
    (* std::unordered_map::insert keeps an entry that is already there *)
    Ok (r.2, match st.2 !! ib.1 with
             | Some _ => st.2
             | None => <[ib.1 := required]> st.2
             end).

Definition PhiAnalysis_new (fuel : nat) (args : option AST_arguments) (cfg : CFG)
    (scope_info : ScopeInfo) : result (PhiAnalysis * CFG) :=
  d ← DefinednessAnalysis_new fuel args cfg scope_info;
  st ← foldM (phi_block fuel d.2) (imap pair d.2) (d.1, ∅);
  Ok ({| definedness := st.1; required_phis := st.2 |}, d.2).

Definition getAllRequiredAfter (cfg : CFG) (block : nat) (phi : PhiAnalysis)
  : result (gset string * PhiAnalysis) :=
  b ← deref cfg block;
  if decide (length (successors b) = 0) then Ok (∅, phi)
  else
    s0 ← match successors b !! 0 with Some s => Ok s | None => Fatal bad_block_pointer end;
    let set := default ∅ (required_phis phi !! s0) in
    Ok (set, {| definedness := definedness phi;
                required_phis := <[s0 := set]> (required_phis phi) |}).

Definition getAllDefinedAt (block : nat) (phi : PhiAnalysis) : gset string * PhiAnalysis :=
  let r := getDefinedNamesAt block (definedness phi) in
  (r.1, {| definedness := r.2; required_phis := required_phis phi |}).

Definition isRequired (name : string) (block : nat) (phi : PhiAnalysis) : bool * PhiAnalysis :=
  let set := default ∅ (required_phis phi !! block) in
  (bool_decide (name ∈ set),
   {| definedness := definedness phi; required_phis := <[block := set]> (required_phis phi) |}).

Definition isRequiredAfter (cfg : CFG) (name : string) (block : nat) (phi : PhiAnalysis)
  : result (bool * PhiAnalysis) :=
  b ← deref cfg block;
  if decide (length (successors b) ≠ 1) then Ok (false, phi)
  else
    s0 ← match successors b !! 0 with Some s => Ok s | None => Fatal bad_block_pointer end;
    Ok (isRequired name s0 phi).

Definition isPotentiallyUndefinedAfter (cfg : CFG) (name : string) (block : nat)
    (phi : PhiAnalysis) : result (bool * PhiAnalysis) :=
  b ← deref cfg block;
  if decide (0 < length (successors b)) then
    s0 ← match successors b !! 0 with Some s => Ok s | None => Fatal bad_block_pointer end;
    let r := isDefinedAt name s0 (definedness phi) in
    if decide (r.1 ≠ Undefined) then
      Ok (bool_decide (r.1 = PotentiallyDefined),
          {| definedness := r.2; required_phis := required_phis phi |})
    else Fatal assert_dlevel
  else Fatal assert_has_successor.

(** The entry points.  [LivenessAnalysis] has no state: the object that
    [computeLivenessInfo] returns is represented by the graph the queries
    are asked about. *)
Definition computeRequiredPhis (fuel : nat) (args : option AST_arguments) (cfg : CFG)
    (scope_info : ScopeInfo) : result (PhiAnalysis * CFG) :=
  PhiAnalysis_new fuel args cfg scope_info.

(** * Vocabulary of the properties *)

(** ** Well-formed graphs *)

(** Successor pointers point into the graph. *)
Definition cfg_closed (cfg : CFG) : Prop :=
  ∀ i b j, cfg !! i = Some b → j ∈ successors b → j < length cfg.

(** Predecessor pointers point into the graph. *)
Definition preds_closed (cfg : CFG) : Prop :=
  ∀ i b j, cfg !! i = Some b → j ∈ predecessors b → j < length cfg.

(** Every name node of every block is tagged [Load] or [Store]: the
    classification of a block does not abort. *)
Definition cfg_tagged (cfg : CFG) : Prop :=
  ∀ i b, cfg !! i = Some b → ∃ v, classify b = Ok v.

(** ** Liveness *)

(** The read set of block [i] contains [name]. *)
Definition reads (cfg : CFG) (name : string) (i : nat) : Prop :=
  ∃ b v, cfg !! i = Some b ∧ classify b = Ok v ∧ name ∈ _loads v.

(** The write set of block [i] contains [name]: the block writes the name
    without first reading it. *)
Definition writes_first (cfg : CFG) (name : string) (i : nat) : Prop :=
  ∃ b v, cfg !! i = Some b ∧ classify b = Ok v ∧ name ∈ _stores v.

Definition edge (cfg : CFG) (i j : nat) : Prop :=
  ∃ b, cfg !! i = Some b ∧ j ∈ successors b.

(** A forward path that ends in a block reading [name], none of whose
    earlier blocks writes [name] first. *)
Inductive read_path (cfg : CFG) (name : string) : list nat → Prop :=
| read_path_end i : reads cfg name i → read_path cfg name [i]
| read_path_step i j l :
    ¬ writes_first cfg name i → edge cfg i j →
    read_path cfg name (j :: l) → read_path cfg name (i :: j :: l).

(** The edges that leave blocks not yet visited: with the length of the
    queue, what bounds the remaining rounds of the loop. *)
Fixpoint unvisited_from (k : nat) (l : list CFGBlock) (visited : gset nat) : nat :=
  match l with
  | [] => 0
  | b :: l' =>
      (if decide (k ∈ visited) then 0 else length (successors b))
      + unvisited_from (S k) l' visited
  end.

Definition edges (cfg : CFG) : nat := sum_list_with (λ b, length (successors b)) cfg.

(** ** Definedness *)

(** The names a target binds: a name, or the names of the elements of a
    tuple; an attribute or a subscript binds nothing. *)
Fixpoint target_names (t : AST_expr) : list string :=
  match t with
  | AST_Name id _ => [id]
  | AST_Tuple elts => flat_map target_names elts
  | _ => []
  end.

(** The name an import alias binds. *)
Definition bound_name (alias : AST_alias) : string :=
  if decide (String.length (asname alias) ≠ 0) then asname alias else alias_name alias.

(** The names a statement writes. *)
Definition stmt_writes (s : AST_stmt) : list string :=
  match s with
  | AST_Assign targets _ => flat_map target_names targets
  | AST_ClassDef name => [name]
  | AST_FunctionDef name => [name]
  | AST_Import names => bound_name <$> names
  | _ => []
  end.

Definition arguments_writes (a : AST_arguments) : list string :=
  from_option target_names [] (kwarg a)
  ++ (if decide (String.length (vararg a) ≠ 0) then [vararg a] else [])
  ++ flat_map target_names (args a).

(** The names a block writes: those of its statements and, for the block
    with index 0, the parameters. *)
Definition block_writes (arguments : option AST_arguments) (b : CFGBlock) : list string :=
  flat_map stmt_writes (body b)
  ++ match arguments with
     | Some a => if decide (idx b = 0) then arguments_writes a else []
     | None => []
     end.

(** The names written anywhere in the function. *)
Definition all_writes (arguments : option AST_arguments) (cfg : CFG) : list string :=
  flat_map (block_writes arguments) cfg.

(** An alias, a statement and a block as a visit of [DefinednessVisitor]
    leaves them. *)
Definition stored_alias (alias : AST_alias) : AST_alias :=
  if decide (String.length (asname alias) ≠ 0)
  then {| alias_name := asname alias; asname := asname alias |}
  else alias.

Definition visited_stmt (s : AST_stmt) : AST_stmt :=
  match s with
  | AST_Import names => AST_Import (stored_alias <$> names)
  | _ => s
  end.

Definition visited_block (b : CFGBlock) : CFGBlock :=
  {| idx := idx b; body := visited_stmt <$> body b;
     predecessors := predecessors b; successors := successors b |}.

(** The graph during the analysis: every block is as it was handed in, or
    as a visit leaves it. *)
Definition settled (cfg cfg' : CFG) : Prop :=
  Forall2 (λ b b', b' = b ∨ b' = visited_block b) cfg cfg'.

Definition set_all (names : list string) (state : gmap string DefinitionLevel)
  : gmap string DefinitionLevel :=
  foldl (λ st x, _doSet_name x st) state names.

(** Well-formed input for the definedness visitor: the visit of the block
    does not abort (every statement is of a kind the visitor overrides and
    every assignment target is a name, an attribute, a subscript or a tuple
    of such). *)
Definition analyzable (arguments : option AST_arguments) (b : CFGBlock) : Prop :=
  ∃ r, processBB arguments ∅ b = Ok r.

Definition cfg_analyzable (arguments : option AST_arguments) (cfg : CFG) : Prop :=
  ∀ i b, cfg !! i = Some b → analyzable arguments b.

(** *** Paths from the entry block *)

(** Block [p] writes [name]. *)
Definition writes (arguments : option AST_arguments) (cfg : CFG) (name : string) (p : nat)
  : Prop :=
  ∃ b, cfg !! p = Some b ∧ name ∈ block_writes arguments b.

(** [entry_path cfg l b]: control can run from the entry of block 0
    through the blocks [l], in this order, to the entry of block [b]. *)
Inductive entry_path (cfg : CFG) : list nat → nat → Prop :=
| entry_path_start : entry_path cfg [] 0
| entry_path_edge l p b : entry_path cfg l p → edge cfg p b → entry_path cfg (l ++ [p]) b.

(** [name] is written on the way. *)
Definition written_on (arguments : option AST_arguments) (cfg : CFG) (name : string)
    (l : list nat) : Prop :=
  ∃ p, p ∈ l ∧ writes arguments cfg name p.

(** *** States of the fixed-point computation *)

(** No map records [Undefined]. *)
Definition levels_recorded (m : gmap string DefinitionLevel) : Prop :=
  ∀ x, m !! x ≠ Some Undefined.

(** Every map of a state records levels only. *)
Definition all_recorded (states : gmap nat (gmap string DefinitionLevel)) : Prop :=
  ∀ i m, states !! i = Some m → levels_recorded m.

(** The assertions of [merge] and [mergeBlank]. *)
Definition merge_assertion (f : fatal) : Prop :=
  f = assert_merge_from ∨ f = assert_merge_into ∨ f = assert_mergeBlank.

(** What a map says about a name: that some path writes it (a level is
    recorded), and that some path does not (no level, or
    [PotentiallyDefined]). *)
Definition maybe_written (m : gmap string DefinitionLevel) (x : string) : Prop :=
  is_Some (m !! x).

Definition maybe_unwritten (m : gmap string DefinitionLevel) (x : string) : Prop :=
  m !! x = None ∨ m !! x = Some PotentiallyDefined.

(** [m'] says all that [m] says. *)
Definition below (m m' : gmap string DefinitionLevel) : Prop :=
  ∀ x, (maybe_written m x → maybe_written m' x) ∧
       (maybe_unwritten m x → maybe_unwritten m' x).

(** The entry of a name of an entry map after an exit state was fed in. *)
Definition join (from into : option DefinitionLevel) : option DefinitionLevel :=
  match from, into with
  | None, None => None
  | Some a, Some b =>
      Some (if decide (a = PotentiallyDefined ∨ b = PotentiallyDefined)
            then PotentiallyDefined else Defined)
  | _, _ => Some PotentiallyDefined
  end.

(** An exit state can be fed into block [j]: its levels are recorded,
    and what it says about a name is true of some path to the entry of
    [j]. *)
Definition arrives (arguments : option AST_arguments) (cfg : CFG)
    (m : gmap string DefinitionLevel) (j : nat) : Prop :=
  j < length cfg ∧ levels_recorded m ∧
  (∀ x, maybe_written m x → x ∈ all_writes arguments cfg) ∧
  (∀ x, maybe_written m x → ∃ l, entry_path cfg l j ∧ written_on arguments cfg x l) ∧
  (∀ x, maybe_unwritten m x → ∃ l, entry_path cfg l j ∧ ¬ written_on arguments cfg x l).

(** Every entry map of a state is true of the paths to its block. *)
Definition sound (arguments : option AST_arguments) (cfg : CFG)
    (states : gmap nat (gmap string DefinitionLevel)) : Prop :=
  ∀ i m, states !! i = Some m → arrives arguments cfg m i.

(** The entry block can be entered without any write. *)
Definition entry_unwritten (states : gmap nat (gmap string DefinitionLevel)) : Prop :=
  ∃ m0, states !! 0 = Some m0 ∧ ∀ x, maybe_unwritten m0 x.

(** The exit state of block [i] is accounted for in all its successors. *)
Definition fed (arguments : option AST_arguments) (cfg : CFG)
    (states : gmap nat (gmap string DefinitionLevel)) (i : nat) : Prop :=
  ∀ m b, states !! i = Some m → cfg !! i = Some b →
  ∀ j, j ∈ successors b →
  ∃ mj, states !! j = Some mj ∧ below (set_all (block_writes arguments b) m) mj.

(** The bound on the rounds of the worklist loop: every block is reached
    once, and after that each of its names moves to [PotentiallyDefined] at
    most once. *)
Definition block_potential (names : list string) (o : option (gmap string DefinitionLevel))
  : nat :=
  match o with
  | None => 0
  | Some m =>
      S (sum_list_with (λ x, if decide (m !! x = Some PotentiallyDefined) then 1 else 0) names)
  end.

Definition potential (names : list string) (n : nat)
    (states : gmap nat (gmap string DefinitionLevel)) : nat :=
  sum_list_with (λ i, block_potential names (states !! i)) (seq 0 n).

Definition rounds (arguments : option AST_arguments) (cfg : CFG) : nat :=
  length cfg * S (length (all_writes arguments cfg)).

(** One state of the worklist loop against a later one: maps only say
    more, a block whose map changed or that was reached is queued, a new
    queue entry has a map, and every new queue entry is paid for by
    potential. *)
Definition grows (names : list string) (n : nat)
    (st st' : gmap nat (gmap string DefinitionLevel) * list nat) : Prop :=
  (∀ i m, st.1 !! i = Some m →
          ∃ m', st'.1 !! i = Some m' ∧ below m m' ∧ (m' = m ∨ i ∈ st'.2)) ∧
  (∀ i, st.1 !! i = None → is_Some (st'.1 !! i) → i ∈ st'.2) ∧
  (∀ i, i ∈ st.2 → i ∈ st'.2) ∧
  (∀ i, i ∈ st'.2 → i ∈ st.2 ∨ is_Some (st'.1 !! i)) ∧
  length st'.2 + potential names n st.1 ≤ length st.2 + potential names n st'.1.

(** ** The phi analysis *)

(** What the rounds of the block loop of [PhiAnalysis] keep of the
    definedness object: its tables up to entries that [operator[]]
    default-constructs. *)
Definition same_definedness (da da0 : DefinednessAnalysis) : Prop :=
  results da = results da0 ∧ scope_info da = scope_info da0 ∧
  ∀ k, default ∅ (defined da !! k) = default ∅ (defined da0 !! k).

(** The analysis object that [computeRequiredPhis] hands out, when the
    construction goes through. *)
Definition phis_of (fuel : nat) (args : option AST_arguments) (cfg : CFG)
    (scope_info : ScopeInfo) : option PhiAnalysis :=
  match PhiAnalysis_new fuel args cfg scope_info with
  | Ok r => Some r.1
  | _ => None
  end.

(** ** Sample graphs *)

Definition a_constant : AST_expr := AST_OtherExpr [].

Definition assign_to (x : string) : AST_stmt := AST_Assign [AST_Name x Store] a_constant.

Definition print_of (x : string) : AST_stmt := AST_Print None [AST_Name x Load].

Definition no_globals : ScopeInfo := {| refersToGlobal := λ _, false |}.

Definition g_is_global : ScopeInfo :=
  {| refersToGlobal := λ name, bool_decide (name = "g"%string) |}.

(** [x = 1] in block 0, then blocks 1 and 2 in a straight line. *)
Definition straight_line : CFG :=
  [ {| idx := 0; body := [assign_to "x"; AST_Jump]; predecessors := []; successors := [1] |};
    {| idx := 1; body := [AST_Jump]; predecessors := [0]; successors := [2] |};
    {| idx := 2; body := [print_of "x"]; predecessors := [1]; successors := [] |} ].

(** [if c: x = 1] followed by [print x]: block 0 branches to blocks 1 and
    2, which both jump to block 3. *)
Definition diamond : CFG :=
  [ {| idx := 0; body := [AST_Branch a_constant]; predecessors := []; successors := [1; 2] |};
    {| idx := 1; body := [assign_to "x"; AST_Jump]; predecessors := [0]; successors := [3] |};
    {| idx := 2; body := [AST_Jump]; predecessors := [0]; successors := [3] |};
    {| idx := 3; body := [print_of "x"]; predecessors := [1; 2]; successors := [] |} ].

(** [while c: y = 1] followed by [print y]: block 1 is the loop header,
    block 2 the loop body, block 3 the code after the loop. *)
Definition while_loop : CFG :=
  [ {| idx := 0; body := [assign_to "x"; AST_Jump]; predecessors := []; successors := [1] |};
    {| idx := 1; body := [AST_Branch a_constant]; predecessors := [0; 2];
       successors := [2; 3] |};
    {| idx := 2; body := [assign_to "y"; AST_Jump]; predecessors := [1]; successors := [1] |};
    {| idx := 3; body := [print_of "y"]; predecessors := [1]; successors := [] |} ].

(** [x = 1; if c: pass] followed by [print x]: block 0 branches to the
    merge block 1 directly and through block 2. *)
Definition critical_edge : CFG :=
  [ {| idx := 0; body := [assign_to "x"; AST_Branch a_constant];
       predecessors := []; successors := [1; 2] |};
    {| idx := 1; body := [print_of "x"]; predecessors := [0; 2]; successors := [] |};
    {| idx := 2; body := [AST_Jump]; predecessors := [0]; successors := [1] |} ].

(** [x = 1; return] followed by code that is never reached: [print x] in
    a block without predecessors. *)
Definition dead_code : CFG :=
  [ {| idx := 0; body := [assign_to "x"; AST_Return None];
       predecessors := []; successors := [] |};
    {| idx := 1; body := [print_of "x"]; predecessors := []; successors := [] |} ].

(** [global g; g = 1; x = 2] followed by [print g; print x]. *)
Definition assigns_global : CFG :=
  [ {| idx := 0; body := [AST_Global ["g"%string]; assign_to "g"; assign_to "x"; AST_Jump];
       predecessors := []; successors := [1] |};
    {| idx := 1; body := [print_of "g"; print_of "x"]; predecessors := [0; 0];
       successors := [] |} ].

(** [import x] between a jump and [print x]. *)
Definition import_then_print : CFG :=
  [ {| idx := 0; body := [AST_Jump]; predecessors := []; successors := [1] |};
    {| idx := 1; body := [AST_Import [{| alias_name := "x"; asname := "" |}]; AST_Jump];
       predecessors := [0]; successors := [2] |};
    {| idx := 2; body := [print_of "x"]; predecessors := [1]; successors := [] |} ].

(** The same with [x = ...] in place of the import. *)
Definition assign_then_print : CFG :=
  [ {| idx := 0; body := [AST_Jump]; predecessors := []; successors := [1] |};
    {| idx := 1; body := [assign_to "x"; AST_Jump];
       predecessors := [0]; successors := [2] |};
    {| idx := 2; body := [print_of "x"]; predecessors := [1]; successors := [] |} ].

(** A statement of a kind that [DefinednessVisitor] does not override. *)
Definition unhandled_statement : CFG :=
  [ {| idx := 0; body := [AST_OtherStmt []]; predecessors := []; successors := [] |} ].

(** [import os as o] *)
Definition imports_os_as_o : CFG :=
  [ {| idx := 0; body := [AST_Import [{| alias_name := "os"; asname := "o" |}]];
       predecessors := []; successors := [] |} ].

Definition diamond_phis : PhiAnalysis :=
  default {| definedness := {| results := ∅; defined := ∅; scope_info := no_globals |};
             required_phis := ∅ |}
          (phis_of 9 None diamond no_globals).

Definition critical_edge_phis : PhiAnalysis :=
  default {| definedness := {| results := ∅; defined := ∅; scope_info := no_globals |};
             required_phis := ∅ |}
          (phis_of 9 None critical_edge no_globals).

(** ** Inputs on which the visitors do not abort *)

Definition ctx_tagged (c : AST_ctx) : bool :=
  match c with
  | Load | Store => true
  | _ => false
  end.

(** Every name node that the liveness visitor reaches in an expression is
    tagged [Load] or [Store]. *)
Fixpoint expr_tagged (e : AST_expr) : bool :=
  match e with
  | AST_Name _ ctx_type => ctx_tagged ctx_type
  | AST_Attribute value _ => expr_tagged value
  | AST_Subscript value slice => expr_tagged value && expr_tagged slice
  | AST_Tuple elts => forallb expr_tagged elts
  | AST_OtherExpr operands => forallb expr_tagged operands
  end.

Definition stmt_tagged (s : AST_stmt) : bool :=
  match s with
  | AST_Assign targets value => expr_tagged value && forallb expr_tagged targets
  | AST_Branch test => expr_tagged test
  | AST_Expr value => expr_tagged value
  | AST_Print dest values => from_option expr_tagged true dest && forallb expr_tagged values
  | AST_Return value => from_option expr_tagged true value
  | AST_OtherStmt operands => forallb expr_tagged operands
  | AST_ClassDef _ | AST_FunctionDef _ | AST_Global _ | AST_Import _
  | AST_Jump | AST_Pass => true
  end.

(** A target that [_doSet] has a case for: a name, an attribute, a
    subscript, or a tuple of such. *)
Fixpoint supported_target (t : AST_expr) : bool :=
  match t with
  | AST_Name _ _ | AST_Attribute _ _ | AST_Subscript _ _ => true
  | AST_Tuple elts => forallb supported_target elts
  | AST_OtherExpr _ => false
  end.

(** A statement that [DefinednessVisitor] overrides the visit of, with
    targets that [_doSet] has a case for. *)
Definition supported_stmt (s : AST_stmt) : bool :=
  match s with
  | AST_Assign targets _ => forallb supported_target targets
  | AST_OtherStmt _ => false
  | _ => true
  end.

Definition supported_arguments (a : AST_arguments) : bool :=
  from_option supported_target true (kwarg a) && forallb supported_target (args a).

Definition block_supported (arguments : option AST_arguments) (b : CFGBlock) : bool :=
  forallb supported_stmt (body b)
  && match arguments with
     | Some a => if decide (idx b = 0) then supported_arguments a else true
     | None => true
     end.

(** No import of the block binds an alias ([import a as b]). *)
Definition alias_free_stmt (s : AST_stmt) : bool :=
  match s with
  | AST_Import names => forallb (λ alias, bool_decide (String.length (asname alias) = 0)) names
  | _ => true
  end.

Definition alias_free (b : CFGBlock) : bool := forallb alias_free_stmt (body b).

(** ** Answers of the queries *)

(** Two analysis objects that answer every query alike: their tables agree
    up to entries that hold the default value. *)
Definition same_answers (phi phi' : PhiAnalysis) : Prop :=
  scope_info (definedness phi) = scope_info (definedness phi') ∧
  (∀ k, default ∅ (results (definedness phi) !! k)
        = default ∅ (results (definedness phi') !! k)) ∧
  (∀ k, default ∅ (defined (definedness phi) !! k)
        = default ∅ (defined (definedness phi') !! k)) ∧
  (∀ k, default ∅ (required_phis phi !! k) = default ∅ (required_phis phi' !! k)).

(** The answer of a query that can stop, without the analysis object. *)
Definition answer {X : Type} (r : result (X * PhiAnalysis)) : result X :=
  p ← r; Ok p.1.

(** ** More sample graphs *)

(** [import os as o] followed by [print o]. *)
Definition imports_then_uses : CFG :=
  [ {| idx := 0; body := [AST_Import [{| alias_name := "os"; asname := "o" |}]; AST_Jump];
       predecessors := []; successors := [1] |};
    {| idx := 1; body := [print_of "o"]; predecessors := [0]; successors := [] |} ].

(** The same graph as the definedness analysis leaves it. *)
Definition imported_then_used : CFG :=
  [ {| idx := 0; body := [AST_Import [{| alias_name := "o"; asname := "o" |}]; AST_Jump];
       predecessors := []; successors := [1] |};
    {| idx := 1; body := [print_of "o"]; predecessors := [0]; successors := [] |} ].

Definition imports_then_uses_phis : PhiAnalysis :=
  default {| definedness := {| results := ∅; defined := ∅; scope_info := no_globals |};
             required_phis := ∅ |}
          (phis_of 5 None imports_then_uses no_globals).

(** ** References in visit order *)

(** The name nodes below an expression with their context tags, in the
    order in which the liveness visitor meets them. *)
Fixpoint expr_refs (e : AST_expr) : list (string * AST_ctx) :=
  match e with
  | AST_Name id ctx_type => [(id, ctx_type)]
  | AST_Attribute value _ => expr_refs value
  | AST_Subscript value slice => expr_refs value ++ expr_refs slice
  | AST_Tuple elts => flat_map expr_refs elts
  | AST_OtherExpr operands => flat_map expr_refs operands
  end.

(** The references of a statement; a class or function definition counts
    as a write of its name, an import as nothing. *)
Definition stmt_refs (s : AST_stmt) : list (string * AST_ctx) :=
  match s with
  | AST_Assign targets value => expr_refs value ++ flat_map expr_refs targets
  | AST_Branch test => expr_refs test
  | AST_ClassDef name => [(name, Store)]
  | AST_Expr value => expr_refs value
  | AST_FunctionDef name => [(name, Store)]
  | AST_Print dest values => from_option expr_refs [] dest ++ flat_map expr_refs values
  | AST_Return value => from_option expr_refs [] value
  | AST_OtherStmt operands => flat_map expr_refs operands
  | AST_Global _ | AST_Import _ | AST_Jump | AST_Pass => []
  end.

Definition block_refs (b : CFGBlock) : list (string * AST_ctx) :=
  flat_map stmt_refs (body b).

(** The tag of the first reference to [name], if there is one. *)
Definition first_ref (name : string) (l : list (string * AST_ctx)) : option AST_ctx :=
  snd <$> head (filter (λ p, p.1 = name) l).

(** A visitor fed a list of references one by one. *)
Definition replay (l : list (string * AST_ctx)) (v : LivenessBBVisitor)
  : result LivenessBBVisitor :=
  foldM (λ v p, visit_name p.1 p.2 v) l v.

(** A block that reads [x], assigns [x] and then assigns [y] and reads it. *)
Definition reads_then_writes : CFGBlock :=
  {| idx := 0;
     body := [print_of "x"; assign_to "x"; assign_to "y"; print_of "y"];
     predecessors := []; successors := [] |}.

(** The analysis of [diamond] after a query about a block that has no
    entry in the table of required names. *)
Definition diamond_phis_asked : PhiAnalysis := (isRequired "x" 0 diamond_phis).2.

(** A join block whose only statement holds a name tagged [Del], below an
    empty entry block. *)
Definition untagged_join : CFG :=
  [ {| idx := 0; body := []; predecessors := []; successors := [1] |};
    {| idx := 1; body := [AST_Expr (AST_Name "x" Del)];
       predecessors := [0; 0]; successors := [] |} ].

(** A definedness table that records [x] for block 1. *)
Definition x_defined_at_1 : DefinednessAnalysis :=
  {| results := {[1 := {["x"%string := Defined]}]};
     defined := {[1 := {["x"%string]}]};
     scope_info := no_globals |}.
(** * Properties *)

(** ** The [result] monad and its loops *)

Lemma bind_Ok {A B} (m : result A) (f : A → result B) (b : B) :
  m ≫= f = Ok b ↔ ∃ a, m = Ok a ∧ f a = Ok b.
Proof.
  destruct m as [a| |]; simpl; split.
  - eauto.
  - intros (a' & [= ->] & Hf). exact Hf.
  - discriminate.
  - intros (a' & [=] & _).
  - discriminate.
  - intros (a' & [=] & _).
Qed.

Lemma foldM_app {A B} (f : B → A → result B) (l1 l2 : list A) (b : B) :
  foldM f (l1 ++ l2) b = foldM f l1 b ≫= foldM f l2.
Proof.
  revert b. induction l1 as [|x l1 IH]; intros b; simpl; [done|].
  destruct (f b x) as [b'| |]; simpl; [apply IH|done|done].
Qed.

(** An invariant of the loop body is an invariant of the loop. *)
Lemma foldM_invariant {A B} (f : B → A → result B) (P : B → Prop) (l : list A) :
  (∀ b x b', x ∈ l → P b → f b x = Ok b' → P b') →
  ∀ b b', P b → foldM f l b = Ok b' → P b'.
Proof.
  induction l as [|x l IH]; intros Hf b b' Hb; simpl.
  - intros [= <-]. exact Hb.
  - intros (b1 & H1 & H2)%bind_Ok.
    eapply IH; [|eapply Hf; [|exact Hb|exact H1]|exact H2].
    + intros ? ? ? ?. apply Hf. by right.
    + by left.
Qed.

(** ** Structural induction on target and expression nodes *)

Section AST_expr_induction.
Variable P : AST_expr → Prop.
Hypothesis HName : ∀ id ctx_type, P (AST_Name id ctx_type).
Hypothesis HAttribute : ∀ value attr, P value → P (AST_Attribute value attr).
Hypothesis HSubscript : ∀ value slice, P value → P slice → P (AST_Subscript value slice).
Hypothesis HTuple : ∀ elts, Forall P elts → P (AST_Tuple elts).
Hypothesis HOther : ∀ operands, Forall P operands → P (AST_OtherExpr operands).

Fixpoint AST_expr_nested_ind (e : AST_expr) : P e :=
  match e with
  | AST_Name id ctx_type => HName id ctx_type
  | AST_Attribute value attr => HAttribute value attr (AST_expr_nested_ind value)
  | AST_Subscript value slice =>
      HSubscript value slice (AST_expr_nested_ind value) (AST_expr_nested_ind slice)
  | AST_Tuple elts =>
      HTuple elts ((fix go (l : list AST_expr) : Forall P l :=
                      match l with
                      | [] => @List.Forall_nil _ P
                      | x :: l' => @List.Forall_cons _ P x l' (AST_expr_nested_ind x) (go l')
                      end) elts)
  | AST_OtherExpr operands =>
      HOther operands ((fix go (l : list AST_expr) : Forall P l :=
                          match l with
                          | [] => @List.Forall_nil _ P
                          | x :: l' => @List.Forall_cons _ P x l' (AST_expr_nested_ind x) (go l')
                          end) operands)
  end.
End AST_expr_induction.

(** ** The read/write classification of a block *)

Section visitor_invariant.
(** Whatever [_doLoad] and [_doStore] preserve, a whole visit preserves. *)
Variable P : LivenessBBVisitor → Prop.
Hypothesis P_doLoad : ∀ name v, P v → P (_doLoad name v).
Hypothesis P_doStore : ∀ name v, P v → P (_doStore name v).

Lemma accept_expr_preserves e : ∀ v v', P v → accept_expr e v = Ok v' → P v'.
Proof using P_doLoad P_doStore.
  induction e as [id ctx| value attr IH | value slice IH1 IH2 | elts IH | ops IH]
    using AST_expr_nested_ind; intros v v' Hv; simpl.
  - destruct ctx; simpl; intros [= <-]; auto.
  - eauto.
  - intros (v1 & H1 & H2)%bind_Ok. eauto.
  - apply foldM_invariant; [|exact Hv].
    intros b x b' Hx Hb. rewrite Forall_forall in IH. eauto.
  - apply foldM_invariant; [|exact Hv].
    intros b x b' Hx Hb. rewrite Forall_forall in IH. eauto.
Qed.

Lemma accept_exprs_preserves l v v' : P v → accept_exprs l v = Ok v' → P v'.
Proof using P_doLoad P_doStore.
  apply foldM_invariant. intros b x b' _ Hb. by apply accept_expr_preserves.
Qed.

Lemma accept_opt_preserves o v v' : P v → accept_opt o v = Ok v' → P v'.
Proof using P_doLoad P_doStore.
  destruct o; simpl; [by apply accept_expr_preserves|by intros ? [= <-]].
Qed.

Lemma accept_stmt_preserves s v v' : P v → accept_stmt v s = Ok v' → P v'.
Proof using P_doLoad P_doStore.
  intros Hv. destruct s; simpl;
    try (intros [= <-]; auto; fail);
    try (by apply accept_expr_preserves);
    try (by apply accept_exprs_preserves);
    try (by apply accept_opt_preserves).
  - intros (v1 & H1 & H2)%bind_Ok.
    eapply accept_exprs_preserves; [|exact H2]. by eapply accept_expr_preserves.
  - intros (v1 & H1 & H2)%bind_Ok.
    eapply accept_exprs_preserves; [|exact H2]. by eapply accept_opt_preserves.
Qed.

Lemma accept_body_preserves l v v' : P v → foldM accept_stmt l v = Ok v' → P v'.
Proof using P_doLoad P_doStore.
  apply foldM_invariant. intros b x b' _ Hb. by apply accept_stmt_preserves.
Qed.
End visitor_invariant.

(** A name is never in both sets of a block. *)
Lemma classify_disjoint b v : classify b = Ok v → _loads v ## _stores v.
Proof.
  unfold classify.
  apply (accept_body_preserves (λ v, _loads v ## _stores v)); simpl; [| |set_solver].
  - intros name w Hw. unfold _doLoad. case_decide; simpl; set_solver.
  - intros name w Hw. unfold _doStore. case_decide; simpl; set_solver.
Qed.

Lemma recorded_read_stays name l v v' :
  name ∈ _loads v → name ∉ _stores v →
  foldM accept_stmt l v = Ok v' → name ∈ _loads v' ∧ name ∉ _stores v'.
Proof.
  intros H1 H2.
  apply (accept_body_preserves (λ v, name ∈ _loads v ∧ name ∉ _stores v)); [| |done].
  - intros n w Hw. unfold _doLoad. case_decide; simpl; set_solver.
  - intros n w Hw. unfold _doStore. case_decide; simpl; set_solver.
Qed.

Lemma recorded_write_stays name l v v' :
  name ∈ _stores v → name ∉ _loads v →
  foldM accept_stmt l v = Ok v' → name ∈ _stores v' ∧ name ∉ _loads v'.
Proof.
  intros H1 H2.
  apply (accept_body_preserves (λ v, name ∈ _stores v ∧ name ∉ _loads v)); [| |done].
  - intros n w Hw. unfold _doLoad. case_decide; simpl; set_solver.
  - intros n w Hw. unfold _doStore. case_decide; simpl; set_solver.
Qed.

(** C6.  Within the classification pass of one block, which starts from
    a fresh visitor: a write of a name already recorded as read records
    nothing, and a read of a name already recorded as written records
    nothing; so a name recorded as read after part of the body is still in
    the read set, and not in the write set, after the whole body, and the
    same with read and write exchanged.  A block that reads [x] and then
    assigns it has [x] in its read set and nothing in its write set. *)
Theorem classification_exclusive :
  (∀ name v, name ∈ _loads v → _doStore name v = v) ∧
  (∀ name v, name ∈ _stores v → _doLoad name v = v) ∧
  (∀ b pre post v1 v2 name,
     body b = pre ++ post →
     foldM accept_stmt pre LivenessBBVisitor_new = Ok v1 →
     classify b = Ok v2 →
     (name ∈ _loads v1 → name ∈ _loads v2 ∧ name ∉ _stores v2) ∧
     (name ∈ _stores v1 → name ∈ _stores v2 ∧ name ∉ _loads v2)) ∧
  (∀ x i preds succs,
     classify {| idx := i;
                 body := [AST_Expr (AST_Name x Load);
                          AST_Assign [AST_Name x Store] (AST_OtherExpr [])];
                 predecessors := preds; successors := succs |}
     = Ok {| _loads := {[x]}; _stores := ∅ |}).
Proof.
  split; [|split; [|split]].
  - intros name v H. unfold _doStore. by rewrite decide_True.
  - intros name v H. unfold _doLoad. by rewrite decide_True.
  - intros b pre post v1 v2 name Hbody Hpre Hall.
    unfold classify in Hall. rewrite Hbody, foldM_app, Hpre in Hall. simpl in Hall.
    assert (_loads v1 ## _stores v1) as Hdisj.
    { apply (classify_disjoint {| idx := 0; body := pre; predecessors := [];
                                  successors := [] |}). exact Hpre. }
    split; intros Hin.
    + eapply recorded_read_stays; [exact Hin| |exact Hall]. set_solver.
    + eapply recorded_write_stays; [exact Hin| |exact Hall]. set_solver.
  - intros x i preds succs. unfold classify. simpl.
    unfold _doLoad, _doStore. simpl.
    rewrite (decide_False (P := x ∈ ∅)) by set_solver. simpl.
    rewrite (decide_True (P := x ∈ {[x]} ∪ ∅)) by set_solver.
    f_equal. f_equal. set_solver.
Qed.

(** The third part of [classification_exclusive] on the body
    [print x; x = ...; print x]: after the first statement [x] is recorded
    as read, and it stays read and unwritten. *)
Lemma classification_exclusive_witness :
  ∃ v2, classify {| idx := 0;
                    body := [AST_Print None [AST_Name "x" Load];
                             AST_Assign [AST_Name "x" Store] (AST_OtherExpr []);
                             AST_Print None [AST_Name "x" Load]];
                    predecessors := []; successors := [] |} = Ok v2 ∧
        "x"%string ∈ _loads v2 ∧ "x"%string ∉ _stores v2.
Proof.
  eexists. split; [reflexivity|].
  refine (proj1 (proj1 (proj2 (proj2 classification_exclusive))
    {| idx := 0;
       body := [AST_Print None [AST_Name "x" Load];
                AST_Assign [AST_Name "x" Store] (AST_OtherExpr []);
                AST_Print None [AST_Name "x" Load]];
       predecessors := []; successors := [] |}
    [AST_Print None [AST_Name "x" Load]]
    [AST_Assign [AST_Name "x" Store] (AST_OtherExpr []);
     AST_Print None [AST_Name "x" Load]]
    _ _ "x"%string eq_refl eq_refl eq_refl) _).
  apply elem_of_union_l, elem_of_singleton. reflexivity.
Defined.

(** ** Liveness: the loop and its paths *)

Lemma unvisited_from_empty k l : unvisited_from k l ∅ = edges l.
Proof.
  revert k. induction l as [|b l IH]; intros k; simpl; [done|].
  rewrite decide_False by set_solver. unfold edges in IH. by rewrite IH.
Qed.

Lemma unvisited_from_below i k l visited :
  i < k → unvisited_from k l ({[i]} ∪ visited) = unvisited_from k l visited.
Proof.
  revert k. induction l as [|b l IH]; intros k Hik; simpl; [done|].
  rewrite IH by lia. f_equal.
  destruct (decide (k ∈ visited)) as [Hk|Hk].
  - rewrite decide_True by set_solver. done.
  - rewrite decide_False; [done|]. set_unfold. intros [?|?]; [lia|done].
Qed.

Lemma unvisited_from_visit k l j b visited :
  l !! j = Some b → k + j ∉ visited →
  unvisited_from k l ({[k + j]} ∪ visited) + length (successors b)
  = unvisited_from k l visited.
Proof.
  revert k j. induction l as [|b0 l IH]; intros k j Hl Hj; [done|].
  destruct j as [|j]; simpl in *.
  - injection Hl as ->. rewrite Nat.add_0_r in *.
    rewrite decide_True by set_solver. rewrite decide_False by done.
    rewrite unvisited_from_below by lia. lia.
  - replace (k + S j) with (S k + j) in * by lia.
    rewrite <- (IH (S k) j Hl Hj).
    destruct (decide (k ∈ visited)) as [Hk|Hk].
    + rewrite decide_True by set_solver. lia.
    + rewrite decide_False; [lia|]. set_unfold. intros [?|?]; [lia|done].
Qed.

Lemma edges_lookup cfg i b : cfg !! i = Some b → length (successors b) ≤ edges cfg.
Proof.
  revert i. induction cfg as [|b0 cfg IH]; intros i Hi; [done|].
  unfold edges in *. destruct i as [|i]; simpl in *.
  - injection Hi as ->. lia.
  - specialize (IH i Hi). lia.
Qed.

Section liveness.
Variables (cfg : CFG) (name : string).
Hypothesis Hclosed : cfg_closed cfg.
Hypothesis Htagged : cfg_tagged cfg.

(** A path that starts in a visited block goes through the queue. *)
Lemma read_path_from_visited (visited : gset nat) (q : list nat) :
  (∀ i, i ∈ visited →
        ¬ reads cfg name i ∧
        (¬ writes_first cfg name i → ∀ j, edge cfg i j → j ∈ visited ∨ j ∈ q)) →
  ∀ l, read_path cfg name l →
  ∀ s, head l = Some s → s ∈ visited →
  ∃ l' s', head l' = Some s' ∧ s' ∈ q ∧ read_path cfg name l'.
Proof.
  intros Hinv l Hl. induction Hl as [i Hr|i j l Hw He Hl IH]; intros s [= <-] Hs.
  - by destruct (Hinv _ Hs) as [? _].
  - destruct (Hinv _ Hs) as [_ Hsucc].
    destruct (Hsucc Hw j He) as [Hj|Hj].
    + by apply (IH j).
    + exists (j :: l), j. done.
Qed.

Lemma isLiveAtEnd_loop_spec fuel :
  ∀ (visited : gset nat) (q : list nat),
  length q + unvisited_from 0 cfg visited < fuel →
  (∀ j, j ∈ q → j < length cfg) →
  (∀ i, i ∈ visited →
        ¬ reads cfg name i ∧
        (¬ writes_first cfg name i → ∀ j, edge cfg i j → j ∈ visited ∨ j ∈ q)) →
  ∃ r, isLiveAtEnd_loop fuel cfg name visited q = Ok r ∧
       (r = true ↔ ∃ l s, head l = Some s ∧ s ∈ q ∧ read_path cfg name l).
Proof using Hclosed Htagged.
  induction fuel as [|fuel IH]; intros visited q Hfuel Hq Hinv; [lia|].
  destruct q as [|a q]; simpl.
  { exists false. split; [done|]. split; [done|].
    intros (l & s & _ & Hs & _). by apply elem_of_nil in Hs. }
  destruct (decide (a ∈ visited)) as [Ha|Ha].
  { destruct (IH visited q) as (r & Hr & Hiff).
    - simpl in Hfuel. lia.
    - intros j Hj. apply Hq. by right.
    - intros i Hi. destruct (Hinv i Hi) as [Hnr Hsucc]. split; [done|].
      intros Hw j He. destruct (Hsucc Hw j He) as [?|Hj]; [by left|].
      apply elem_of_cons in Hj as [->|?]; [by left|by right].
    - exists r. split; [done|]. rewrite Hiff. split.
      + intros (l & s & ? & ? & ?). exists l, s. split_and!; [done| |done]. by right.
      + intros (l & s & Hh & Hs & Hl).
        apply elem_of_cons in Hs as [->|Hs]; [|by exists l, s].
        eapply (read_path_from_visited visited q); [|exact Hl|exact Hh|exact Ha].
        intros i Hi. destruct (Hinv i Hi) as [Hnr Hsucc]. split; [done|].
        intros Hw j He. destruct (Hsucc Hw j He) as [?|Hj]; [by left|].
        apply elem_of_cons in Hj as [->|?]; [by left|by right]. }
  assert (a < length cfg) as Halt by (apply Hq; by left).
  destruct (lookup_lt_is_Some_2 cfg a Halt) as [b Hb].
  unfold deref. rewrite Hb. simpl.
  destruct (Htagged a b Hb) as [v Hv]. rewrite Hv. simpl.
  pose proof (unvisited_from_visit 0 cfg a b visited Hb Ha) as Hmeasure.
  simpl in Hmeasure, Hfuel.
  destruct (decide (name ∈ _loads v)) as [Hload|Hload].
  { exists true. split; [done|]. split; [|done]. intros _.
    exists [a], a. split_and!; [done|by left|].
    apply read_path_end. by exists b, v. }
  assert (¬ reads cfg name a) as Hnr.
  { intros (b' & v' & Hb' & Hv' & Hin). congruence. }
  destruct (decide (name ∈ _stores v)) as [Hstore|Hstore].
  - destruct (IH ({[a]} ∪ visited) q) as (r & Hr & Hiff).
    + lia.
    + intros j Hj. apply Hq. by right.
    + intros i Hi. apply elem_of_union in Hi as [->%elem_of_singleton|Hi].
      * split; [done|]. intros Hw. exfalso. apply Hw. by exists b, v.
      * destruct (Hinv i Hi) as [Hnri Hsucc]. split; [done|].
        intros Hw j He. destruct (Hsucc Hw j He) as [?|Hj]; [left; set_solver|].
        apply elem_of_cons in Hj as [->|?]; [left; set_solver|by right].
    + exists r. split; [done|]. rewrite Hiff. split.
      * intros (l & s & ? & ? & ?). exists l, s. split_and!; [done| |done]. by right.
      * intros (l & s & Hh & Hs & Hl).
        apply elem_of_cons in Hs as [->|Hs]; [|by exists l, s].
        exfalso. inversion Hl as [i Hr' Heq|i j l' Hw He Hl' Heq]; subst;
          injection Hh as <-; [done|]. apply Hw. by exists b, v.
  - assert (¬ writes_first cfg name a) as Hnw.
    { intros (b' & v' & Hb' & Hv' & Hin). congruence. }
    destruct (IH ({[a]} ∪ visited) (q ++ successors b)) as (r & Hr & Hiff).
    + rewrite length_app. lia.
    + intros j [Hj|Hj]%elem_of_app; [apply Hq; by right|by eapply Hclosed].
    + intros i Hi. apply elem_of_union in Hi as [->%elem_of_singleton|Hi].
      * split; [done|]. intros _ j (b' & Hb' & Hj). right.
        apply elem_of_app. right. congruence.
      * destruct (Hinv i Hi) as [Hnri Hsucc]. split; [done|].
        intros Hw j He. destruct (Hsucc Hw j He) as [?|Hj]; [left; set_solver|].
        apply elem_of_cons in Hj as [->|?]; [left; set_solver|].
        right. apply elem_of_app. by left.
    + exists r. split; [done|]. rewrite Hiff. split.
      * intros (l & s & Hh & [Hs|Hs]%elem_of_app & Hl).
        -- exists l, s. split_and!; [done|by right|done].
        -- destruct l as [|s' l]; [done|]. injection Hh as ->.
           exists (a :: s :: l), a. split_and!; [done|by left|].
           apply read_path_step; [done| |done]. by exists b.
      * intros (l & s & Hh & Hs & Hl).
        apply elem_of_cons in Hs as [->|Hs].
        -- inversion Hl as [i Hr' Heq|i j l' Hw He Hl' Heq]; subst;
             injection Hh as <-; [done|].
           exists (j :: l'), j. split_and!; [done| |done].
           apply elem_of_app. right. destruct He as (b' & Hb' & Hj). congruence.
        -- exists l, s. split_and!; [done| |done]. apply elem_of_app. by left.
Qed.
End liveness.

Lemma read_path_from_middle cfg name l :
  read_path cfg name l →
  ∀ y, y ∈ l → ∃ l1 l2, l = l1 ++ l2 ∧ head l2 = Some y ∧ read_path cfg name l2.
Proof.
  induction 1 as [i Hr|i j l Hw He Hl IH]; intros y Hy.
  - apply list_elem_of_singleton in Hy as ->.
    exists [], [i]. split_and!; [done|done|]. by apply read_path_end.
  - apply elem_of_cons in Hy as [->|Hy].
    + exists [], (i :: j :: l). split_and!; [done|done|]. by apply read_path_step.
    + destruct (IH y Hy) as (l1 & l2 & Heq & Hh & Hp).
      exists (i :: l1), l2. split_and!; [|done|done]. simpl. by rewrite Heq.
Qed.

(** Each block needs to be visited at most once. *)
Lemma read_path_simple cfg name l :
  read_path cfg name l →
  ∀ s, head l = Some s → ∃ l', head l' = Some s ∧ read_path cfg name l' ∧ NoDup l'.
Proof.
  induction 1 as [i Hr|i j l Hw He Hl IH]; intros s [= <-].
  - exists [i]. split_and!; [done|by apply read_path_end|].
    apply NoDup_singleton.
  - destruct (IH j eq_refl) as (l' & Hh & Hp & Hnd).
    destruct (decide (i ∈ l')) as [Hi|Hi].
    + destruct (read_path_from_middle _ _ _ Hp i Hi) as (l1 & l2 & -> & Hh2 & Hp2).
      exists l2. split_and!; [done|done|].
      by apply NoDup_app in Hnd as (_ & _ & ?).
    + destruct l' as [|j' l']; [done|]. injection Hh as ->.
      exists (i :: j :: l'). split_and!; [done|by apply read_path_step|].
      by apply NoDup_cons.
Qed.

(** C2.  On a well-formed graph, with fuel for the loop, [isLiveAtEnd]
    returns, and it returns [true] exactly when a forward path that visits
    no block twice starts in a successor of [block] and ends in a block
    whose read set contains [name], while no earlier block of the path has
    [name] in its write set (such a block is not passed through).  A block
    without successors yields [false] at once, whatever the fuel. *)
Theorem isLiveAtEnd_iff_read_path cfg name block b fuel :
  cfg_closed cfg → cfg_tagged cfg →
  cfg !! block = Some b →
  2 * edges cfg < fuel →
  ∃ r, isLiveAtEnd fuel cfg name block = Ok r ∧
       (r = true ↔
        ∃ l s, head l = Some s ∧ s ∈ successors b ∧ read_path cfg name l ∧ NoDup l) ∧
       (length (successors b) = 0 →
        r = false ∧ ∀ fuel', isLiveAtEnd fuel' cfg name block = Ok false).
Proof.
  intros Hclosed Htagged Hb Hfuel.
  unfold isLiveAtEnd, deref. rewrite Hb. simpl.
  destruct (decide (length (successors b) = 0)) as [Hz|Hz].
  - exists false. split_and!; [done| |done].
    split; [done|]. intros (l & s & _ & Hs & _).
    destruct (successors b); [by apply elem_of_nil in Hs|done].
  - destruct (isLiveAtEnd_loop_spec cfg name Hclosed Htagged fuel ∅ (successors b))
      as (r & Hr & Hiff).
    + rewrite unvisited_from_empty. pose proof (edges_lookup _ _ _ Hb). lia.
    + intros j Hj. by eapply Hclosed.
    + set_solver.
    + exists r. split_and!; [done| |done].
      rewrite Hiff. split.
      * intros (l & s & Hh & Hs & Hl).
        destruct (read_path_simple _ _ _ Hl s Hh) as (l' & Hh' & Hl' & Hnd).
        by exists l', s.
      * intros (l & s & Hh & Hs & Hl & _). by exists l, s.
Qed.

(** Proofs of well-formedness of a concrete graph go block by block. *)
Ltac each_block i H :=
  repeat (destruct i as [|i]; simpl in H; [injection H as <-|]);
  lazymatch goal with
  | Hnil : None = Some _ |- _ => discriminate Hnil
  | Hnil : [] !! _ = Some _ |- _ => discriminate Hnil
  | _ => idtac
  end.

Lemma diamond_closed : cfg_closed diamond.
Proof.
  intros i b j Hi Hj. each_block i Hi; simpl in *; set_unfold; lia.
Qed.

Lemma diamond_tagged : cfg_tagged diamond.
Proof.
  intros i b Hi. each_block i Hi; eexists; reflexivity.
Qed.

(** [isLiveAtEnd_iff_read_path] on the branch block of [diamond]. *)
Lemma isLiveAtEnd_iff_read_path_witness :
  ∃ r, isLiveAtEnd 9 diamond "x" 0 = Ok r ∧
       (r = true ↔
        ∃ l s, head l = Some s ∧ s ∈ [1; 2] ∧ read_path diamond "x" l ∧ NoDup l) ∧
       (length [1; 2] = 0 →
        r = false ∧ ∀ fuel', isLiveAtEnd fuel' diamond "x" 0 = Ok false).
Proof.
  apply (isLiveAtEnd_iff_read_path diamond "x" 0
           {| idx := 0; body := [AST_Branch a_constant];
              predecessors := []; successors := [1; 2] |} 9
           diamond_closed diamond_tagged eq_refl).
  vm_compute. lia.
Defined.

(** ** Queries of the phi analysis *)

Lemma DefinednessAnalysis_eta da :
  {| results := results da; defined := defined da; scope_info := scope_info da |} = da.
Proof. by destruct da. Qed.

Lemma PhiAnalysis_eta phi :
  {| definedness := definedness phi; required_phis := required_phis phi |} = phi.
Proof. by destruct phi. Qed.

(** A lookup that finds a recorded level leaves the tables as they are. *)
Lemma isDefinedAt_recorded name block da :
  (isDefinedAt name block da).1 ≠ Undefined → (isDefinedAt name block da).2 = da.
Proof.
  unfold isDefinedAt.
  destruct (results da !! block) as [map|] eqn:Hmap; simpl.
  - intros _. rewrite (insert_id _ _ _ Hmap).
    destruct (map !! name); simpl; apply DefinednessAnalysis_eta.
  - rewrite lookup_empty. simpl. done.
Qed.

(** C8.  [isPotentiallyUndefinedAfter] stops fatally on a block without
    successors, and when the level of the name at the first successor is
    [Undefined]; when the block has a successor and the level there is
    recorded, it answers whether that level is [PotentiallyDefined] and
    hands the analysis back unchanged. *)
Theorem isPotentiallyUndefinedAfter_spec cfg name block b phi :
  cfg !! block = Some b →
  (length (successors b) = 0 →
   isPotentiallyUndefinedAfter cfg name block phi = Fatal assert_has_successor) ∧
  (∀ s0, successors b !! 0 = Some s0 →
     (isDefinedAt name s0 (definedness phi)).1 = Undefined →
     isPotentiallyUndefinedAfter cfg name block phi = Fatal assert_dlevel) ∧
  (∀ s0, successors b !! 0 = Some s0 →
     (isDefinedAt name s0 (definedness phi)).1 ≠ Undefined →
     ∃ r, isPotentiallyUndefinedAfter cfg name block phi = Ok (r, phi) ∧
          (r = true ↔ (isDefinedAt name s0 (definedness phi)).1 = PotentiallyDefined)).
Proof.
  intros Hb. unfold isPotentiallyUndefinedAfter, deref. rewrite Hb. simpl.
  split_and!.
  - intros Hz. rewrite decide_False by lia. done.
  - intros s0 Hs0 Hu. rewrite decide_True by (destruct (successors b); simpl in *; [done|lia]).
    rewrite Hs0. simpl. rewrite decide_False; [done|]. by intros ?.
  - intros s0 Hs0 Hu. rewrite decide_True by (destruct (successors b); simpl in *; [done|lia]).
    rewrite Hs0. simpl. rewrite decide_True by done.
    eexists. split.
    + rewrite (isDefinedAt_recorded _ _ _ Hu), PhiAnalysis_eta. reflexivity.
    + apply bool_decide_eq_true.
Qed.

(** [isPotentiallyUndefinedAfter_spec] after block 2 of [diamond], the arm
    that does not assign [x]. *)
Lemma isPotentiallyUndefinedAfter_spec_witness :
  (length [3] = 0 →
   isPotentiallyUndefinedAfter diamond "x" 2 diamond_phis = Fatal assert_has_successor) ∧
  (∀ s0, [3] !! 0 = Some s0 →
     (isDefinedAt "x" s0 (definedness diamond_phis)).1 = Undefined →
     isPotentiallyUndefinedAfter diamond "x" 2 diamond_phis = Fatal assert_dlevel) ∧
  (∀ s0, [3] !! 0 = Some s0 →
     (isDefinedAt "x" s0 (definedness diamond_phis)).1 ≠ Undefined →
     ∃ r, isPotentiallyUndefinedAfter diamond "x" 2 diamond_phis = Ok (r, diamond_phis) ∧
          (r = true ↔
           (isDefinedAt "x" s0 (definedness diamond_phis)).1 = PotentiallyDefined)).
Proof.
  exact (isPotentiallyUndefinedAfter_spec diamond "x" 2
           {| idx := 2; body := [AST_Jump]; predecessors := [0]; successors := [3] |}
           diamond_phis eq_refl).
Defined.

(** The answer in that scenario: the use must be guarded. *)
Example diamond_potentially_undefined :
  isPotentiallyUndefinedAfter diamond "x" 2 diamond_phis = Ok (true, diamond_phis).
Proof. vm_compute. reflexivity. Qed.

(** C10.  For a block with two or more successors [getAllRequiredAfter]
    returns the required-phi set of the first successor, while
    [isRequiredAfter] answers [false] for every name; for a block without
    successors it returns the empty set.  The set returned for a block with
    two successors can be non-empty: in [critical_edge] it is [{x}] for
    block 0. *)
Theorem getAllRequiredAfter_first_successor :
  (∀ cfg block b phi s0,
     cfg !! block = Some b → 2 ≤ length (successors b) → successors b !! 0 = Some s0 →
     (∃ phi', getAllRequiredAfter cfg block phi
              = Ok (default ∅ (required_phis phi !! s0), phi')) ∧
     (∀ name, name ∈ default ∅ (required_phis phi !! s0)
              ↔ (isRequired name s0 phi).1 = true) ∧
     (∀ name, isRequiredAfter cfg name block phi = Ok (false, phi))) ∧
  (∀ cfg block b phi,
     cfg !! block = Some b → length (successors b) = 0 →
     getAllRequiredAfter cfg block phi = Ok (∅, phi)) ∧
  (∃ phi cfg' phi',
     PhiAnalysis_new 9 None critical_edge no_globals = Ok (phi, cfg') ∧
     (successors <$> cfg' !! 0) = Some [1; 2] ∧
     getAllRequiredAfter cfg' 0 phi = Ok ({["x"%string]}, phi') ∧
     isRequiredAfter cfg' "x" 0 phi = Ok (false, phi)).
Proof.
  split_and!.
  - intros cfg block b phi s0 Hb Hlen Hs0. split_and!.
    + unfold getAllRequiredAfter, deref. rewrite Hb. simpl.
      rewrite decide_False by lia. rewrite Hs0. simpl. eauto.
    + intros name. unfold isRequired. simpl. by rewrite bool_decide_eq_true.
    + intros name. unfold isRequiredAfter, deref. rewrite Hb. simpl.
      rewrite decide_True by lia. done.
  - intros cfg block b phi Hb Hlen.
    unfold getAllRequiredAfter, deref. rewrite Hb. simpl.
    by rewrite decide_True by lia.
  - eexists _, _, _. split_and!.
    + vm_compute. reflexivity.
    + reflexivity.
    + vm_compute. reflexivity.
    + vm_compute. reflexivity.
Qed.

(** [getAllRequiredAfter_first_successor] at the branch block of
    [critical_edge]. *)
Lemma getAllRequiredAfter_first_successor_witness :
  (∃ phi', getAllRequiredAfter critical_edge 0 critical_edge_phis
           = Ok (default ∅ (required_phis critical_edge_phis !! 1), phi')) ∧
  (∀ name, name ∈ default ∅ (required_phis critical_edge_phis !! 1)
           ↔ (isRequired name 1 critical_edge_phis).1 = true) ∧
  (∀ name, isRequiredAfter critical_edge name 0 critical_edge_phis
           = Ok (false, critical_edge_phis)).
Proof.
  refine (proj1 getAllRequiredAfter_first_successor critical_edge 0
            {| idx := 0; body := [assign_to "x"; AST_Branch a_constant];
               predecessors := []; successors := [1; 2] |}
            critical_edge_phis 1 eq_refl _ eq_refl).
  simpl. lia.
Defined.

(** ** Construction of the phi analysis *)

Lemma required_at_fold fuel cfg pred0 l :
  ∀ acc r, foldM (required_at fuel cfg pred0) l acc = Ok r →
  ∀ n, n ∈ r ↔ n ∈ acc ∨ (n ∈ l ∧ isLiveAtEnd fuel cfg n pred0 = Ok true).
Proof.
  induction l as [|x l IH]; intros acc r; simpl.
  - intros [= <-] n. split; [by left|]. intros [?|[Hn _]]; [done|].
    by apply elem_of_nil in Hn.
  - intros (acc' & Hx & Hl)%bind_Ok n.
    unfold required_at in Hx. apply bind_Ok in Hx as (live & Hlive & [= <-]).
    rewrite (IH _ _ Hl n), elem_of_cons. destruct live.
    + rewrite elem_of_union, elem_of_singleton. split.
      * intros [[->|?]|[? ?]]; eauto.
      * intros [?|[[->|?] ?]]; eauto.
    + split.
      * intros [?|[? ?]]; eauto.
      * intros [?|[[->|?] ?]]; eauto. congruence.
Qed.

Lemma getDefinedNamesAt_same block da :
  same_definedness (getDefinedNamesAt block da).2 da.
Proof.
  unfold same_definedness, getDefinedNamesAt. simpl. split_and!; [done|done|].
  intros k. destruct (decide (block = k)) as [->|Hne].
  - rewrite lookup_insert_eq. done.
  - by rewrite lookup_insert_ne.
Qed.

Lemma phi_block_spec fuel cfg st i b st' :
  phi_block fuel cfg st (i, b) = Ok st' →
  same_definedness st'.1 st.1 ∧
  (length (predecessors b) < 2 → st'.2 = st.2) ∧
  (2 ≤ length (predecessors b) →
   ∃ pred0 required,
     predecessors b !! 0 = Some pred0 ∧
     st'.2 = match st.2 !! i with Some _ => st.2 | None => <[i := required]> st.2 end ∧
     ∀ n, n ∈ required ↔
          n ∈ default ∅ (defined st.1 !! i) ∧ isLiveAtEnd fuel cfg n pred0 = Ok true).
Proof.
  unfold phi_block. simpl.
  destruct (decide (length (predecessors b) < 2)) as [Hlt|Hge].
  - intros [= <-]. split_and!; [done|done|lia].
  - intros (_ & _ & (pred0 & Hp & (required & Hreq & [= <-])%bind_Ok)%bind_Ok)%bind_Ok.
    split_and!; [apply getDefinedNamesAt_same|lia|]. intros _.
    destruct (predecessors b !! 0) as [p|] eqn:Hp0; [|done]. injection Hp as ->.
    exists pred0, required. split_and!; [done|done|].
    intros n. rewrite (required_at_fold _ _ _ _ _ _ Hreq n).
    rewrite elem_of_elements. set_solver.
Qed.

Lemma phi_blocks_spec fuel cfg da0 l :
  ∀ st, foldM (phi_block fuel cfg) (imap pair l) (da0, ∅) = Ok st →
  same_definedness st.1 da0 ∧
  (∀ i, length l ≤ i → st.2 !! i = None) ∧
  ∀ i b, l !! i = Some b →
    (length (predecessors b) < 2 → st.2 !! i = None) ∧
    (2 ≤ length (predecessors b) →
     ∃ pred0 required,
       predecessors b !! 0 = Some pred0 ∧ st.2 !! i = Some required ∧
       ∀ n, n ∈ required ↔
            n ∈ default ∅ (defined da0 !! i) ∧ isLiveAtEnd fuel cfg n pred0 = Ok true).
Proof.
  induction l as [|b0 l IH] using rev_ind; intros st.
  - simpl. intros [= <-]. split_and!; [done|done|]. intros i b Hi. done.
  - rewrite imap_app, foldM_app. simpl. rewrite Nat.add_0_r.
    intros (st0 & Hst0 & (st1 & Hst1 & [= <-])%bind_Ok)%bind_Ok.
    destruct (IH st0 Hst0) as ((Hres & Hscope & Hdef) & Hfresh & Hdone).
    destruct (phi_block_spec _ _ _ _ _ _ Hst1) as ((Hres1 & Hscope1 & Hdef1) & Hlt & Hge).
    rewrite (Hfresh (length l)) in Hge by lia.
    split_and!.
    + split_and!; [congruence|congruence|]. intros k. by rewrite Hdef1, Hdef.
    + intros i Hi. rewrite length_app in Hi. simpl in Hi.
      destruct (decide (length (predecessors b0) < 2)) as [H2|H2].
      * rewrite (Hlt H2). apply Hfresh. lia.
      * destruct Hge as (pred0 & required & _ & -> & _); [lia|].
        rewrite lookup_insert_ne by lia. apply Hfresh. lia.
    + intros i b Hi. apply lookup_app_Some in Hi as [Hi|[Hlen Hi]].
      * pose proof (lookup_lt_Some _ _ _ Hi) as Hil.
        destruct (Hdone i b Hi) as [Hd1 Hd2].
        destruct (decide (length (predecessors b0) < 2)) as [H2|H2].
        -- by rewrite (Hlt H2).
        -- destruct Hge as (pred0 & required & _ & -> & _); [lia|].
           rewrite lookup_insert_ne by lia. done.
      * destruct (i - length l) as [|k] eqn:Hk; [|by destruct k].
        injection Hi as ->. assert (i = length l) as -> by lia.
        split.
        -- intros H2. rewrite (Hlt H2). apply Hfresh. lia.
        -- intros H2. destruct (Hge H2) as (pred0 & required & Hp & -> & Hreq).
           exists pred0, required. split_and!; [done|by rewrite lookup_insert_eq|].
           intros n. by rewrite Hreq, Hdef.
Qed.

Lemma PhiAnalysis_new_inv fuel args cfg scope_info phi cfg' :
  PhiAnalysis_new fuel args cfg scope_info = Ok (phi, cfg') →
  ∃ da0, DefinednessAnalysis_new fuel args cfg scope_info = Ok (da0, cfg') ∧
         foldM (phi_block fuel cfg') (imap pair cfg') (da0, ∅)
         = Ok (definedness phi, required_phis phi).
Proof.
  unfold PhiAnalysis_new.
  intros ([da0 cfg0] & Hd & (st & Hst & [= <- <-])%bind_Ok)%bind_Ok.
  exists da0. simpl in *. split; [done|]. by destruct st.
Qed.

(** The filtered name set of a block: the names recorded in the block's
    map that the scope resolver does not report as global. *)
Lemma defined_names_spec fuel args cfg scope da0 cfg' :
  DefinednessAnalysis_new fuel args cfg scope = Ok (da0, cfg') →
  scope_info da0 = scope ∧
  ∀ block name,
    name ∈ default ∅ (defined da0 !! block) ↔
    name ∈ dom (default ∅ (results da0 !! block)) ∧ refersToGlobal scope name = false.
Proof.
  unfold DefinednessAnalysis_new. intros (r & _ & [= <- <-])%bind_Ok. simpl.
  split; [done|]. intros block name. rewrite lookup_fmap.
  destruct (r.1 !! block) as [m|]; simpl.
  - unfold required_of. rewrite elem_of_filter. tauto.
  - set_solver.
Qed.

(** C5.  After the construction, a block with two or more predecessors
    has a required-phi set, and a name is in it exactly when it is in the
    block's filtered name set (the names recorded in the block's
    definedness map, without those the scope resolver reports as global)
    and it is live at the end of the block's first predecessor; a block
    with fewer than two predecessors has no required-phi entry. *)
Theorem required_phis_spec fuel args cfg scope phi cfg' :
  PhiAnalysis_new fuel args cfg scope = Ok (phi, cfg') →
  ∀ block b, cfg' !! block = Some b →
    (2 ≤ length (predecessors b) →
     ∃ pred0 required,
       predecessors b !! 0 = Some pred0 ∧
       required_phis phi !! block = Some required ∧
       (∀ name, name ∈ required ↔
                name ∈ (getDefinedNamesAt block (definedness phi)).1 ∧
                isLiveAtEnd fuel cfg' name pred0 = Ok true) ∧
       (∀ name, name ∈ (getDefinedNamesAt block (definedness phi)).1 ↔
                name ∈ dom (default ∅ (results (definedness phi) !! block)) ∧
                refersToGlobal scope name = false) ∧
       (∀ name, (isRequired name block phi).1 = bool_decide (name ∈ required))) ∧
    (length (predecessors b) < 2 →
     required_phis phi !! block = None ∧ ∀ name, (isRequired name block phi).1 = false).
Proof.
  intros (da0 & Hda0 & Hfold)%PhiAnalysis_new_inv block b Hb.
  destruct (phi_blocks_spec _ _ _ _ _ Hfold) as ((Hres & Hscope & Hdef) & _ & Hblocks).
  destruct (defined_names_spec _ _ _ _ _ _ Hda0) as [_ Hnames].
  destruct (Hblocks block b Hb) as [Hlt Hge]. simpl in *. split.
  - intros H2. destruct (Hge H2) as (pred0 & required & Hp & Hreq & Hiff).
    exists pred0, required. split_and!; [done|done| | |].
    + intros name. rewrite Hiff. unfold getDefinedNamesAt. simpl. by rewrite Hdef.
    + intros name. unfold getDefinedNamesAt. simpl. by rewrite Hdef, Hnames, Hres.
    + intros name. unfold isRequired. by rewrite Hreq.
  - intros H2. rewrite (Hlt H2). split; [done|]. intros name.
    unfold isRequired. simpl. apply bool_decide_eq_false. set_solver.
Qed.

(** [required_phis_spec] on the merge block of [diamond], which needs a
    phi for [x]. *)
Lemma required_phis_spec_witness :
  (2 ≤ length [1; 2] →
   ∃ pred0 required,
     [1; 2] !! 0 = Some pred0 ∧
     required_phis diamond_phis !! 3 = Some required ∧
     (∀ name, name ∈ required ↔
              name ∈ (getDefinedNamesAt 3 (definedness diamond_phis)).1 ∧
              isLiveAtEnd 9 diamond name pred0 = Ok true) ∧
     (∀ name, name ∈ (getDefinedNamesAt 3 (definedness diamond_phis)).1 ↔
              name ∈ dom (default ∅ (results (definedness diamond_phis) !! 3)) ∧
              refersToGlobal no_globals name = false) ∧
     (∀ name, (isRequired name 3 diamond_phis).1 = bool_decide (name ∈ required))) ∧
  (length [1; 2] < 2 →
   required_phis diamond_phis !! 3 = None ∧
   ∀ name, (isRequired name 3 diamond_phis).1 = false).
Proof.
  refine (required_phis_spec 9 None diamond no_globals diamond_phis diamond _ 3
            {| idx := 3; body := [print_of "x"]; predecessors := [1; 2]; successors := [] |}
            eq_refl).
  vm_compute. reflexivity.
Defined.

(** The set in that scenario. *)
Example diamond_required_phis : required_phis diamond_phis !! 3 = Some {["x"%string]}.
Proof. vm_compute. reflexivity. Qed.

(** C9.  A name that the scope resolver reports as global is in no
    block's [getDefinedNamesAt] or [getAllDefinedAt] result and in no
    block's required-phi set, whatever the function assigns. *)
Theorem globals_excluded fuel args cfg scope name :
  refersToGlobal scope name = true →
  (∀ da cfg', DefinednessAnalysis_new fuel args cfg scope = Ok (da, cfg') →
     ∀ block, name ∉ (getDefinedNamesAt block da).1) ∧
  (∀ phi cfg', PhiAnalysis_new fuel args cfg scope = Ok (phi, cfg') →
     ∀ block,
       (name ∉ (getDefinedNamesAt block (definedness phi)).1) ∧
       (name ∉ (getAllDefinedAt block phi).1) ∧
       (name ∉ default ∅ (required_phis phi !! block)) ∧
       (isRequired name block phi).1 = false).
Proof.
  intros Hglobal. split.
  - intros da cfg' Hda block.
    destruct (defined_names_spec _ _ _ _ _ _ Hda) as [_ Hnames].
    unfold getDefinedNamesAt. simpl. rewrite Hnames. intros [_ ?]. congruence.
  - intros phi cfg' (da0 & Hda0 & Hfold)%PhiAnalysis_new_inv block.
    destruct (phi_blocks_spec _ _ _ _ _ Hfold) as ((Hres & Hscope & Hdef) & Hfresh & Hblocks).
    destruct (defined_names_spec _ _ _ _ _ _ Hda0) as [_ Hnames]. simpl in *.
    assert (name ∉ default ∅ (defined (definedness phi) !! block)) as Hout.
    { rewrite Hdef, Hnames. intros [_ ?]. congruence. }
    assert (name ∉ default ∅ (required_phis phi !! block)) as Hphi.
    { destruct (cfg' !! block) as [b|] eqn:Hb.
      - destruct (Hblocks block b Hb) as [Hlt Hge].
        destruct (decide (length (predecessors b) < 2)) as [H2|H2].
        + rewrite (Hlt H2). set_solver.
        + destruct Hge as (pred0 & required & _ & -> & Hiff); [lia|]. simpl.
          rewrite Hiff, Hnames. intros [[_ ?] _]. congruence.
      - rewrite Hfresh; [set_solver|]. by apply lookup_ge_None. }
    split_and!; [done|done|done|].
    unfold isRequired. simpl. by apply bool_decide_eq_false.
Qed.

(** [globals_excluded] on a function that assigns the global [g]. *)
Lemma globals_excluded_witness :
  (∀ da cfg', DefinednessAnalysis_new 5 None assigns_global g_is_global = Ok (da, cfg') →
     ∀ block, "g"%string ∉ (getDefinedNamesAt block da).1) ∧
  (∀ phi cfg', PhiAnalysis_new 5 None assigns_global g_is_global = Ok (phi, cfg') →
     ∀ block,
       ("g"%string ∉ (getDefinedNamesAt block (definedness phi)).1) ∧
       ("g"%string ∉ (getAllDefinedAt block phi).1) ∧
       ("g"%string ∉ default ∅ (required_phis phi !! block)) ∧
       (isRequired "g" block phi).1 = false).
Proof.
  apply (globals_excluded 5 None assigns_global g_is_global "g").
  reflexivity.
Defined.

(** In that function the construction goes through; [g] has a level at
    block 1 but only [x] is in the block's name set and required-phi set. *)
Example assigns_global_analysis :
  ∃ phi, PhiAnalysis_new 5 None assigns_global g_is_global = Ok (phi, assigns_global) ∧
         (isDefinedAt "g" 1 (definedness phi)).1 = Defined ∧
         (getAllDefinedAt 1 phi).1 = {["x"%string]} ∧
         required_phis phi !! 1 = Some {["x"%string]}.
Proof. eexists. split_and!; vm_compute; reflexivity. Qed.

(** ** The definedness visitor *)

Lemma set_all_app l1 l2 m : set_all (l1 ++ l2) m = set_all l2 (set_all l1 m).
Proof. unfold set_all. apply foldl_app. Qed.

Lemma lookup_set_all l m x :
  set_all l m !! x = if decide (x ∈ l) then Some Defined else m !! x.
Proof.
  revert m. induction l as [|y l IH]; intros m.
  - rewrite decide_False by apply not_elem_of_nil. done.
  - change (set_all (y :: l) m) with (set_all l (_doSet_name y m)).
    rewrite IH. unfold _doSet_name.
    destruct (decide (x ∈ l)) as [Hl|Hl].
    + rewrite decide_True; [done|]. by right.
    + destruct (decide (x = y)) as [->|Hne].
      * rewrite decide_True by by left. apply lookup_insert_eq.
      * rewrite decide_False by (intros [?|?]%elem_of_cons; done).
        by apply lookup_insert_ne.
Qed.

(** Whether [_doSet] aborts depends on the target only, and when it does
    not abort it sets the names of the target. *)
Lemma _doSet_spec t :
  ∀ m m', _doSet t m = Ok m' → ∀ m2, _doSet t m2 = Ok (set_all (target_names t) m2).
Proof.
  induction t as [id ctx| value attr IH | value slice IH1 IH2 | elts IH | ops IH]
    using AST_expr_nested_ind; intros m m'; simpl; try done.
  revert m m'. induction IH as [|e elts He Helts IHelts]; intros m m'; simpl; [done|].
  intros (m1 & H1 & H2)%bind_Ok m2.
  rewrite (He _ _ H1 m2). simpl. rewrite set_all_app. by eapply IHelts.
Qed.

Lemma _doSet_targets_spec targets :
  ∀ m m', foldM (λ st t, _doSet t st) targets m = Ok m' →
  ∀ m2, foldM (λ st t, _doSet t st) targets m2
        = Ok (set_all (flat_map target_names targets) m2).
Proof.
  induction targets as [|t targets IH]; intros m m'; simpl; [done|].
  intros (m1 & H1 & H2)%bind_Ok m2.
  rewrite (_doSet_spec _ _ _ H1 m2). simpl. rewrite set_all_app. by eapply IH.
Qed.

Lemma visit_import_spec names :
  ∀ m acc, foldM visit_import_round names (m, acc)
           = Ok (set_all (bound_name <$> names) m, acc ++ (stored_alias <$> names)).
Proof.
  induction names as [|alias names IH]; intros m acc; simpl.
  - by rewrite app_nil_r.
  - rewrite IH. unfold stored_alias, bound_name.
    rewrite <- app_assoc. simpl.
    destruct (decide (String.length (asname alias) ≠ 0)); done.
Qed.

Lemma stored_alias_idemp alias : stored_alias (stored_alias alias) = stored_alias alias.
Proof.
  unfold stored_alias. destruct (decide (String.length (asname alias) ≠ 0)) as [H|H]; simpl.
  - by rewrite decide_True.
  - by rewrite decide_False.
Qed.

Lemma bound_name_stored alias : bound_name (stored_alias alias) = bound_name alias.
Proof.
  unfold stored_alias, bound_name.
  destruct (decide (String.length (asname alias) ≠ 0)) as [H|H]; simpl.
  - by rewrite decide_True.
  - by rewrite decide_False.
Qed.

Lemma visited_stmt_idemp s : visited_stmt (visited_stmt s) = visited_stmt s.
Proof.
  destruct s; simpl; try done. f_equal. rewrite <- list_fmap_compose.
  apply list_fmap_ext. intros _ alias _. apply stored_alias_idemp.
Qed.

Lemma stmt_writes_visited s : stmt_writes (visited_stmt s) = stmt_writes s.
Proof.
  destruct s; simpl; try done. rewrite <- list_fmap_compose.
  apply list_fmap_ext. intros _ alias _. apply bound_name_stored.
Qed.

(** A statement whose visit does not abort: what the visit does, from any
    state, to it and to the statement it leaves. *)
Lemma visit_stmt_spec s st r :
  visit_stmt st s = Ok r →
  ∀ st2, visit_stmt st2 s = Ok (set_all (stmt_writes s) st2.1, st2.2 ++ [visited_stmt s]) ∧
         visit_stmt st2 (visited_stmt s)
         = Ok (set_all (stmt_writes s) st2.1, st2.2 ++ [visited_stmt s]).
Proof.
  destruct s; simpl; try done; try (intros _ st2; done).
  - intros (m1 & H1 & _)%bind_Ok st2. unfold visit_assign in *.
    by rewrite (_doSet_targets_spec _ _ _ H1 st2.1).
  - intros _ st2. unfold visit_import. rewrite !visit_import_spec. simpl.
    rewrite <- !list_fmap_compose.
    rewrite (list_fmap_ext (stored_alias ∘ stored_alias) stored_alias names)
      by (intros; apply stored_alias_idemp).
    rewrite (list_fmap_ext (bound_name ∘ stored_alias) bound_name names)
      by (intros; apply bound_name_stored).
    done.
Qed.

Lemma visit_body_spec l :
  ∀ st r, foldM visit_stmt l st = Ok r →
  ∀ st2, foldM visit_stmt l st2
         = Ok (set_all (flat_map stmt_writes l) st2.1, st2.2 ++ (visited_stmt <$> l)) ∧
         foldM visit_stmt (visited_stmt <$> l) st2
         = Ok (set_all (flat_map stmt_writes l) st2.1, st2.2 ++ (visited_stmt <$> l)).
Proof.
  induction l as [|s l IH]; intros st r.
  - intros _ st2. simpl. rewrite app_nil_r. by destruct st2.
  - intros (st1 & H1 & H2)%bind_Ok st2.
    destruct (visit_stmt_spec _ _ _ H1 st2) as [Hs Hv].
    destruct (IH _ _ H2 (set_all (stmt_writes s) st2.1, st2.2 ++ [visited_stmt s]))
      as [Hl Hlv].
    rewrite fmap_cons.
    change (flat_map stmt_writes (s :: l)) with (stmt_writes s ++ flat_map stmt_writes l).
    rewrite set_all_app.
    change (st2.2 ++ visited_stmt s :: (visited_stmt <$> l))
      with (st2.2 ++ [visited_stmt s] ++ (visited_stmt <$> l)).
    rewrite app_assoc.
    split.
    + change (foldM visit_stmt (s :: l) st2)
        with (visit_stmt st2 s ≫= foldM visit_stmt l).
      rewrite Hs. exact Hl.
    + change (foldM visit_stmt (visited_stmt s :: (visited_stmt <$> l)) st2)
        with (visit_stmt st2 (visited_stmt s) ≫= foldM visit_stmt (visited_stmt <$> l)).
      rewrite Hv. exact Hlv.
Qed.

Lemma visit_arguments_spec a m m' :
  visit_arguments a m = Ok m' →
  ∀ m2, visit_arguments a m2 = Ok (set_all (arguments_writes a) m2).
Proof.
  unfold visit_arguments, arguments_writes.
  intros (m1 & H1 & H2)%bind_Ok m2.
  rewrite !set_all_app.
  destruct (kwarg a) as [k|]; simpl in *.
  - rewrite (_doSet_spec _ _ _ H1 m2). simpl.
    rewrite (_doSet_targets_spec _ _ _ H2).
    by destruct (decide (String.length (vararg a) ≠ 0)).
  - rewrite (_doSet_targets_spec _ _ _ H2).
    by destruct (decide (String.length (vararg a) ≠ 0)).
Qed.

(** The transfer of a block that can be analyzed: it sets the names the
    block writes and leaves the block in its visited form, on which it
    behaves the same. *)
Lemma processBB_spec arguments b :
  analyzable arguments b →
  ∀ m, processBB arguments m b = Ok (set_all (block_writes arguments b) m, visited_block b) ∧
       processBB arguments m (visited_block b)
       = Ok (set_all (block_writes arguments b) m, visited_block b).
Proof.
  intros [r Hr] m. unfold processBB in *.
  apply bind_Ok in Hr as (r1 & Hbody & (m1 & Hargs & _)%bind_Ok).
  destruct (visit_body_spec _ _ _ Hbody (m, [])) as [H1 H2].
  unfold block_writes. rewrite set_all_app. simpl in *.
  rewrite H1, H2. simpl.
  assert (visited_stmt <$> (visited_stmt <$> body b) = visited_stmt <$> body b) as _.
  { rewrite <- list_fmap_compose. apply list_fmap_ext. intros. apply visited_stmt_idemp. }
  unfold visited_block.
  destruct arguments as [a|]; [|done].
  destruct (decide (idx b = 0)); [|done].
  rewrite (visit_arguments_spec _ _ _ Hargs). done.
Qed.

(** ** Import statements *)

(** In the definedness visitor an import sets the bound name of every
    alias to [Defined]. *)
Lemma visit_import_defines names alias state :
  alias ∈ names →
  ∃ r, visit_import names state = Ok r ∧ r.1 !! bound_name alias = Some Defined.
Proof.
  intros Hin. unfold visit_import. rewrite visit_import_spec. eexists. split; [done|].
  simpl. rewrite lookup_set_all, decide_True; [done|].
  apply list_elem_of_fmap. by exists alias.
Qed.

(** C3.  What the code does with an import.  The definedness visitor
    sets the bound name (the alias if there is one, or else the imported
    name) to [Defined].  The liveness visitor has no [visit_import] and no
    [visit_alias]: an import leaves both of its sets as they are, so it
    does not shadow the name.  With [import x] in the block between a jump
    and [print x], [x] is live at the end of the first block; with
    [x = ...] in place of the import it is not. *)
Theorem import_is_no_liveness_write :
  (∀ names alias state,
     alias ∈ names →
     ∃ r, visit_import names state = Ok r ∧ r.1 !! bound_name alias = Some Defined) ∧
  (∀ v names, accept_stmt v (AST_Import names) = Ok v) ∧
  isLiveAtEnd 9 import_then_print "x" 0 = Ok true ∧
  isLiveAtEnd 9 assign_then_print "x" 0 = Ok false.
Proof.
  split_and!.
  - intros names alias state. apply visit_import_defines.
  - done.
  - vm_compute. reflexivity.
  - vm_compute. reflexivity.
Qed.

(** C4.  What the code does to the graph.  [visit_import] binds a
    reference to [alias->name] and assigns [alias->asname] through it: after
    the definedness analysis of [import os as o] the alias node names [o]
    where it named [os], so the graph is not the graph that was handed in. *)
Theorem definedness_overwrites_alias_name :
  ∃ da cfg',
    DefinednessAnalysis_new 5 None imports_os_as_o no_globals = Ok (da, cfg') ∧
    (body <$> cfg' !! 0) = Some [AST_Import [{| alias_name := "o"; asname := "o" |}]] ∧
    (body <$> imports_os_as_o !! 0)
    = Some [AST_Import [{| alias_name := "os"; asname := "o" |}]] ∧
    cfg' ≠ imports_os_as_o.
Proof.
  eexists _, _. split_and!.
  - vm_compute. reflexivity.
  - reflexivity.
  - reflexivity.
  - intros [=].
Qed.

(** ** The fixed-point engine on the definedness analyzer *)

Lemma for_each_ind {T S : Type} (body : S → string * T → result S) (init : S)
    (P : result S → gmap string T → Prop) :
  P (Ok init) ∅ →
  (∀ i x m r, m !! i = None → P r m → P (r ≫= λ s, body s (i, x)) (<[i:=x]> m)) →
  ∀ m, P (fpc.for_each body m init) m.
Proof.
  intros Hempty Hstep m. unfold fpc.for_each.
  apply (map_fold_weak_ind P); [done|]. intros i x m' r Hi Hr. by apply Hstep.
Qed.

Lemma levels_recorded_insert_None (m : gmap string DefinitionLevel) i v :
  m !! i = None → levels_recorded (<[i:=v]> m) → levels_recorded m ∧ v ≠ Undefined.
Proof.
  intros Hi Hm. split.
  - intros x Hx. apply (Hm x). rewrite lookup_insert_ne; [done|]. congruence.
  - intros ->. apply (Hm i). by rewrite lookup_insert_eq.
Qed.

Section feeding.
Variable arguments : option AST_arguments.
Local Abbreviation A := (DefinednessBBAnalyzer_new arguments).

(** The first loop of a feed: the names the exit state records. *)
Lemma feed_entries_spec (initial : bool) (ending next : gmap string DefinitionLevel) :
  levels_recorded ending → levels_recorded next →
  ∃ next1,
    fpc.for_each (fpc.feed_entry A initial) ending next = Ok next1 ∧
    ∀ x, next1 !! x =
         match ending !! x with
         | Some a =>
             match next !! x with
             | None => Some (if initial then a else PotentiallyDefined)
             | Some b => join (Some a) (Some b)
             end
         | None => next !! x
         end.
Proof using Type.
  intros Hending Hnext. revert Hending.
  apply (for_each_ind (fpc.feed_entry A initial) next
    (λ r m, levels_recorded m → ∃ next1, r = Ok next1 ∧
       ∀ x, next1 !! x =
            match m !! x with
            | Some a =>
                match next !! x with
                | None => Some (if initial then a else PotentiallyDefined)
                | Some b => join (Some a) (Some b)
                end
            | None => next !! x
            end)).
  - intros _. exists next. split; [done|]. intros x. by rewrite lookup_empty.
  - intros i v m r Hi IH Hm.
    apply levels_recorded_insert_None in Hm as [Hm Hv]; [|done].
    destruct (IH Hm) as (n1 & -> & Hn1). simpl.
    unfold fpc.feed_entry. simpl. rewrite Hn1, Hi.
    destruct (next !! i) as [b|] eqn:Hb.
    + unfold DefinednessBBAnalyzer.merge.
      rewrite decide_False by done.
      rewrite decide_False by (intros ->; by apply (Hnext i)).
      destruct (decide (v = PotentiallyDefined ∨ b = PotentiallyDefined)) as [Hpd|Hpd];
        simpl; eexists; (split; [done|]); intros x;
        (destruct (decide (i = x)) as [<-|Hne];
         [rewrite !lookup_insert_eq, Hb; simpl; by rewrite ?decide_True, ?decide_False by done
         |rewrite !lookup_insert_ne by done; apply Hn1]).
    + destruct initial; simpl.
      * eexists. split; [done|]. intros x.
        destruct (decide (i = x)) as [<-|Hne].
        -- by rewrite !lookup_insert_eq, Hb.
        -- rewrite !lookup_insert_ne by done. apply Hn1.
      * unfold DefinednessBBAnalyzer.mergeBlank. rewrite decide_False by done. simpl.
        eexists. split; [done|]. intros x.
        destruct (decide (i = x)) as [<-|Hne].
        -- by rewrite !lookup_insert_eq, Hb.
        -- rewrite !lookup_insert_ne by done. apply Hn1.
Qed.

(** The second loop of a feed: the names only the entry map records. *)
Lemma blank_entries_spec (ending next1 : gmap string DefinitionLevel) :
  levels_recorded next1 →
  ∃ next2,
    fpc.for_each (fpc.blank_entry A ending) next1 next1 = Ok next2 ∧
    ∀ x, next2 !! x =
         match next1 !! x with
         | Some v => if ending !! x is Some _ then Some v else Some PotentiallyDefined
         | None => None
         end.
Proof using Type.
  intros Hnext1.
  cut (∃ next2, fpc.for_each (fpc.blank_entry A ending) next1 next1 = Ok next2 ∧
         ∀ x, next2 !! x =
              match next1 !! x with
              | Some v => if ending !! x is Some _ then next1 !! x
                          else Some PotentiallyDefined
              | None => next1 !! x
              end).
  { intros (n2 & Hn2 & Hx). exists n2. split; [done|]. intros x. rewrite Hx.
    by destruct (next1 !! x). }
  revert Hnext1.
  apply (for_each_ind (fpc.blank_entry A ending) next1
    (λ r m, levels_recorded m → ∃ next2, r = Ok next2 ∧
       ∀ x, next2 !! x =
            match m !! x with
            | Some v => if ending !! x is Some _ then next1 !! x
                        else Some PotentiallyDefined
            | None => next1 !! x
            end)).
  - intros _. exists next1. split; [done|]. intros x. by rewrite lookup_empty.
  - intros i v m r Hi IH Hm.
    apply levels_recorded_insert_None in Hm as [Hm Hv]; [|done].
    destruct (IH Hm) as (n2 & -> & Hn2). simpl.
    unfold fpc.blank_entry. simpl.
    destruct (ending !! i) as [a|] eqn:Ha.
    + eexists. split; [done|]. intros x.
      destruct (decide (i = x)) as [<-|Hne].
      * by rewrite lookup_insert_eq, Ha, Hn2, Hi.
      * rewrite lookup_insert_ne by done. apply Hn2.
    + unfold DefinednessBBAnalyzer.mergeBlank. rewrite decide_False by done. simpl.
      eexists. split; [done|]. intros x.
      destruct (decide (i = x)) as [<-|Hne].
      * by rewrite !lookup_insert_eq, Ha.
      * rewrite !lookup_insert_ne by done. apply Hn2.
Qed.
End feeding.

(** *** Sums *)

Lemma sum_list_with_le {X} (f g : X → nat) (l : list X) :
  (∀ x, x ∈ l → f x ≤ g x) → sum_list_with f l ≤ sum_list_with g l.
Proof.
  induction l as [|y l IH]; intros Hle; simpl; [done|].
  pose proof (Hle y ltac:(by left)).
  assert (sum_list_with f l ≤ sum_list_with g l) by (apply IH; intros; apply Hle; by right).
  lia.
Qed.

Lemma sum_list_with_lt {X} (f g : X → nat) (l : list X) (x : X) :
  (∀ y, y ∈ l → f y ≤ g y) → x ∈ l → f x < g x →
  sum_list_with f l < sum_list_with g l.
Proof.
  induction l as [|y l IH]; intros Hle Hx Hlt; simpl.
  - by apply elem_of_nil in Hx.
  - pose proof (Hle y ltac:(by left)).
    assert (sum_list_with f l ≤ sum_list_with g l)
      by (apply sum_list_with_le; intros; apply Hle; by right).
    apply elem_of_cons in Hx as [<-|Hx]; [lia|].
    assert (sum_list_with f l < sum_list_with g l); [|lia].
    apply IH; [|done|done]. intros; apply Hle; by right.
Qed.

Lemma sum_list_with_pointwise {X} (f g : X → nat) (l : list X) :
  (∀ x, x ∈ l → f x ≤ g x) → sum_list_with g l ≤ sum_list_with f l →
  ∀ x, x ∈ l → f x = g x.
Proof.
  intros Hle Hsum x Hx.
  destruct (decide (f x = g x)) as [|Hne]; [done|].
  pose proof (Hle x Hx).
  assert (sum_list_with f l < sum_list_with g l); [|lia].
  apply (sum_list_with_lt f g l x); [done|done|lia].
Qed.

Lemma sum_list_with_bound {X} (f : X → nat) (l : list X) (c : nat) :
  (∀ x, x ∈ l → f x ≤ c) → sum_list_with f l ≤ length l * c.
Proof.
  induction l as [|y l IH]; intros Hle; simpl; [done|].
  pose proof (Hle y ltac:(by left)).
  assert (sum_list_with f l ≤ length l * c) by (apply IH; intros; apply Hle; by right).
  lia.
Qed.

(** *** What maps say *)

Lemma below_refl m : below m m.
Proof. by intros x. Qed.

Lemma below_trans m1 m2 m3 : below m1 m2 → below m2 m3 → below m1 m3.
Proof. intros H12 H23 x. destruct (H12 x), (H23 x). split; auto. Qed.

Lemma join_below (ending next next' : gmap string DefinitionLevel) :
  (∀ x, next' !! x = join (ending !! x) (next !! x)) →
  levels_recorded next' ∧ below ending next' ∧ below next next'.
Proof.
  intros Hjoin. split_and!.
  - intros x. rewrite Hjoin.
    destruct (ending !! x) as [a|], (next !! x) as [b|]; simpl; try done.
    by destruct (decide (a = PotentiallyDefined ∨ b = PotentiallyDefined)).
  - intros x. unfold maybe_written, maybe_unwritten. rewrite Hjoin.
    destruct (ending !! x) as [a|], (next !! x) as [b|]; simpl;
      (split; [intros [? ?]; try done; eauto|intros [?|?]; try done; eauto]).
    right. simplify_eq. rewrite decide_True; [done|]. by left.
  - intros x. unfold maybe_written, maybe_unwritten. rewrite Hjoin.
    destruct (ending !! x) as [a|], (next !! x) as [b|]; simpl;
      (split; [intros [? ?]; try done; eauto|intros [?|?]; try done; eauto]).
    right. simplify_eq. rewrite decide_True; [done|]. by right.
Qed.

Lemma below_potential names (m m' : gmap string DefinitionLevel) :
  below m m' →
  block_potential names (Some m) ≤ block_potential names (Some m').
Proof.
  intros Hbelow. simpl. apply le_n_S, sum_list_with_le. intros x _.
  destruct (decide (m !! x = Some PotentiallyDefined)) as [Hpd|]; [|lia].
  destruct (Hbelow x) as [Hw Hu]. unfold maybe_written, maybe_unwritten in *.
  rewrite decide_True; [done|].
  destruct Hw as [lvl Hlvl]; [by eexists|]. destruct Hu as [Hu|Hu]; [by right|congruence|done].
Qed.

Lemma below_strict names (m m' : gmap string DefinitionLevel) :
  levels_recorded m → levels_recorded m' → below m m' →
  (∀ x, is_Some (m' !! x) → x ∈ names) →
  m' ≠ m →
  block_potential names (Some m) < block_potential names (Some m').
Proof.
  intros Hm Hm' Hbelow Hnames Hne.
  pose proof (below_potential names m m' Hbelow) as Hle.
  destruct (decide (block_potential names (Some m) < block_potential names (Some m')))
    as [|Hnlt]; [done|].
  exfalso. apply Hne. symmetry. apply map_eq. intros x.
  simpl in *.
  assert (∀ y, y ∈ names →
            (if decide (m !! y = Some PotentiallyDefined) then 1 else 0)
            = (if decide (m' !! y = Some PotentiallyDefined) then 1 else 0)) as Hsame.
  { apply sum_list_with_pointwise; [|lia]. intros y _.
    destruct (decide (m !! y = Some PotentiallyDefined)) as [Hpd|]; [|lia].
    destruct (Hbelow y) as [Hw Hu]. unfold maybe_written, maybe_unwritten in *.
    rewrite decide_True; [done|].
    destruct Hw as [lvl Hlvl]; [by eexists|].
    destruct Hu as [Hu|Hu]; [by right|congruence|done]. }
  destruct (decide (x ∈ names)) as [Hx|Hx].
  - specialize (Hsame x Hx).
    destruct (Hbelow x) as [Hw Hu]. unfold maybe_written, maybe_unwritten in *.
    pose proof (Hm x). pose proof (Hm' x).
    destruct (decide (m !! x = Some PotentiallyDefined)) as [Hp|Hp],
             (decide (m' !! x = Some PotentiallyDefined)) as [Hp'|Hp']; try done.
    + congruence.
    + destruct (m !! x) as [[]|] eqn:Hx1, (m' !! x) as [[]|] eqn:Hx2; try done.
      * destruct Hw as [? [=]]. eauto.
      * destruct Hu as [[=]|[=]]. by left.
  - assert (m' !! x = None) as Hnone.
    { destruct (m' !! x) eqn:Hx'; [|done]. exfalso. apply Hx, Hnames. by eexists. }
    rewrite Hnone. destruct (Hbelow x) as [Hw _]. unfold maybe_written in Hw.
    destruct (m !! x) eqn:Hx1; [|done].
    destruct Hw as [? Hw]; [by eexists|]. congruence.
Qed.

(** *** The potential of a state *)

Lemma potential_bound names n states : potential names n states ≤ n * S (length names).
Proof.
  unfold potential. etrans; [apply (sum_list_with_bound _ _ (S (length names)))|].
  - intros i _. destruct (states !! i) as [m|]; simpl; [|lia].
    apply le_n_S. etrans; [apply (sum_list_with_bound _ _ 1)|lia].
    intros x _. destruct (decide (m !! x = Some PotentiallyDefined)); lia.
  - by rewrite length_seq.
Qed.

Lemma potential_insert_lt names n (states : gmap nat (gmap string DefinitionLevel)) j m' :
  j < n →
  block_potential names (states !! j) < block_potential names (Some m') →
  potential names n states < potential names n (<[j := m']> states).
Proof.
  intros Hj Hlt. unfold potential. apply (sum_list_with_lt _ _ _ j).
  - intros i _. destruct (decide (j = i)) as [<-|Hne].
    + rewrite lookup_insert_eq. lia.
    + by rewrite lookup_insert_ne.
  - apply elem_of_seq. lia.
  - by rewrite lookup_insert_eq.
Qed.

(** *** The worklist *)

Lemma elem_of_push x y q : x ∈ fpc.push y q ↔ x = y ∨ x ∈ q.
Proof.
  induction q as [|b q IH]; simpl.
  - rewrite list_elem_of_singleton. split; [by left|]. intros [?|?%elem_of_nil]; done.
  - destruct (decide (y ≤ b)).
    + by rewrite elem_of_cons.
    + rewrite !elem_of_cons, IH. tauto.
Qed.

Lemma length_push y q : length (fpc.push y q) = S (length q).
Proof.
  induction q as [|b q IH]; simpl; [done|].
  destruct (decide (y ≤ b)); simpl; [done|]. by rewrite IH.
Qed.

Section feeding_spec.
Variable arguments : option AST_arguments.
Local Abbreviation A := (DefinednessBBAnalyzer_new arguments).

(** An exit state fed into the entry map of a block that was reached
    before: no assertion fires, and every name ends as [join] says. *)
Lemma feed_spec (ending next : gmap string DefinitionLevel) :
  levels_recorded ending → levels_recorded next →
  ∃ next', fpc.feed A ending false next = Ok next' ∧
           ∀ x, next' !! x = join (ending !! x) (next !! x).
Proof using Type.
  intros Hending Hnext. unfold fpc.feed.
  destruct (feed_entries_spec arguments false ending next Hending Hnext) as (n1 & -> & H1).
  simpl.
  assert (levels_recorded n1) as Hn1.
  { intros x. rewrite H1. pose proof (Hnext x).
    destruct (ending !! x) as [a|], (next !! x) as [b|]; simpl; try done.
    by destruct (decide (a = PotentiallyDefined ∨ b = PotentiallyDefined)). }
  destruct (blank_entries_spec arguments ending n1 Hn1) as (n2 & -> & H2).
  exists n2. split; [done|]. intros x. rewrite H2, H1.
  pose proof (Hnext x).
  by destruct (ending !! x) as [a|], (next !! x) as [b|].
Qed.

(** An exit state fed into a block reached for the first time is taken
    as it is. *)
Lemma feed_initial (ending : gmap string DefinitionLevel) :
  levels_recorded ending → fpc.feed A ending true ∅ = Ok ending.
Proof using Type.
  intros Hending. unfold fpc.feed.
  destruct (feed_entries_spec arguments true ending ∅ Hending) as (n1 & -> & H1).
  { intros x. by rewrite lookup_empty. }
  simpl.
  assert (∀ x, n1 !! x = ending !! x) as Hsame.
  { intros x. rewrite H1, lookup_empty. by destruct (ending !! x). }
  assert (n1 = ending) as -> by by apply map_eq.
  destruct (blank_entries_spec arguments ending ending Hending) as (n2 & -> & H2).
  f_equal. apply map_eq. intros x. rewrite H2. by destruct (ending !! x).
Qed.
End feeding_spec.

(** ** The assertions of the analyzer *)

Lemma bind_Fatal {X Y} (m : result X) (f : X → result Y) (e : fatal) :
  m ≫= f = Fatal e ↔ m = Fatal e ∨ ∃ a, m = Ok a ∧ f a = Fatal e.
Proof.
  destruct m as [a| |]; simpl; split.
  - intros ?. right. eauto.
  - intros [[=]|(a' & [= ->] & ?)]. done.
  - intros [= ->]. by left.
  - intros [[= ->]|(a' & [=] & _)]. done.
  - discriminate.
  - intros [[=]|(a' & [=] & _)].
Qed.

Lemma foldM_Fatal {X Y} (f : Y → X → result Y) (l : list X) (e : fatal) :
  ∀ b, foldM f l b = Fatal e → ∃ b' x, x ∈ l ∧ f b' x = Fatal e.
Proof.
  induction l as [|x l IH]; intros b; simpl; [done|].
  intros [H|(b1 & H1 & H2)]%bind_Fatal.
  - exists b, x. split; [by left|done].
  - destruct (IH _ H2) as (b' & y & Hy & Hf). exists b', y. split; [by right|done].
Qed.

Lemma _doSet_Fatal t : ∀ m e, _doSet t m = Fatal e → e = assert_unknown_target.
Proof.
  induction t as [id ctx| value attr IH | value slice IH1 IH2 | elts IH | ops IH]
    using AST_expr_nested_ind; intros m e; simpl; try done.
  - intros (m' & t & Ht & Hf)%foldM_Fatal.
    rewrite Forall_forall in IH. by eapply IH.
  - by intros [= <-].
Qed.

Lemma processBB_Fatal arguments m b e :
  processBB arguments m b = Fatal e → ¬ merge_assertion e.
Proof.
  assert (∀ l st, foldM (λ st t, _doSet t st) l st = Fatal e → e = assert_unknown_target)
    as Htargets.
  { intros l st (m' & t & _ & Hf)%foldM_Fatal. by eapply _doSet_Fatal. }
  assert (e = assert_unknown_target ∨ e = abort_unhandled_node → ¬ merge_assertion e)
    as Hkind.
  { unfold merge_assertion. intros [->| ->] [?|[?|?]]; done. }
  unfold processBB. intros [Hbody|(r & _ & Hrest)]%bind_Fatal.
  - apply foldM_Fatal in Hbody as (st & s & _ & Hs). apply Hkind.
    destruct s; simpl in Hs; try done.
    + apply bind_Fatal in Hs as [Hs|(? & _ & [=])]. left.
      by eapply (Htargets targets).
    + apply bind_Fatal in Hs as [Hs|(? & _ & [=])].
      unfold visit_import in Hs. by rewrite visit_import_spec in Hs.
    + right. by injection Hs as <-.
  - apply bind_Fatal in Hrest as [Hargs|(? & _ & [=])]. apply Hkind. left.
    destruct arguments as [a|]; [|done].
    destruct (decide (idx b = 0)); [|done].
    unfold visit_arguments in Hargs.
    apply bind_Fatal in Hargs as [Hk|(m1 & _ & Hrest)].
    + destruct (kwarg a); [|done]. by eapply _doSet_Fatal.
    + by eapply (Htargets (args a)).
Qed.

Lemma processBB_Ok arguments m b r :
  processBB arguments m b = Ok r →
  r = (set_all (block_writes arguments b) m, visited_block b).
Proof.
  intros Hr.
  assert (analyzable arguments b) as Ha.
  { unfold analyzable, processBB in *.
    apply bind_Ok in Hr as (r1 & Hbody & (m1 & Hargs & _)%bind_Ok).
    destruct (visit_body_spec _ _ _ Hbody (∅, [])) as [-> _]. simpl.
    destruct arguments as [a|]; [|by eexists].
    destruct (decide (idx b = 0)); [|by eexists].
    rewrite (visit_arguments_spec _ _ _ Hargs). by eexists. }
  destruct (processBB_spec _ _ Ha m) as [Hspec _]. congruence.
Qed.

Lemma levels_recorded_set_all l m : levels_recorded m → levels_recorded (set_all l m).
Proof.
  intros Hm x. rewrite lookup_set_all. destruct (decide (x ∈ l)); [done|apply Hm].
Qed.

Section no_merge_assertion.
Variable arguments : option AST_arguments.
Local Abbreviation A := (DefinednessBBAnalyzer_new arguments).

Lemma propagate_recorded ending states q j :
  levels_recorded ending → all_recorded states →
  ∃ st, fpc.propagate A ending (states, q) j = Ok st ∧ all_recorded st.1.
Proof using Type.
  intros Hending Hstates. unfold fpc.propagate. simpl.
  destruct (states !! j) as [next|] eqn:Hj; simpl.
  - destruct (feed_spec arguments ending next Hending (Hstates _ _ Hj)) as (next' & -> & Hjoin).
    simpl. eexists. split; [done|]. simpl. intros i m.
    destruct (decide (j = i)) as [<-|Hne].
    + rewrite lookup_insert_eq. intros [= <-]. by apply (join_below ending next).
    + rewrite lookup_insert_ne by done. apply Hstates.
  - rewrite (feed_initial arguments ending Hending). simpl.
    eexists. split; [done|]. simpl. intros i m.
    destruct (decide (j = i)) as [<-|Hne].
    + rewrite lookup_insert_eq. by intros [= <-].
    + rewrite lookup_insert_ne by done. apply Hstates.
Qed.

Lemma propagate_all_recorded ending succs :
  levels_recorded ending →
  ∀ states q, all_recorded states →
  ∃ st, foldM (fpc.propagate A ending) succs (states, q) = Ok st ∧ all_recorded st.1.
Proof using Type.
  intros Hending. induction succs as [|j succs IH]; intros states q Hstates; simpl.
  - by eexists.
  - destruct (propagate_recorded ending states q j Hending Hstates) as ([s1 q1] & -> & H1).
    simpl. by apply IH.
Qed.

Lemma loop_no_merge_assertion fuel :
  ∀ cfg states q e,
  all_recorded states →
  fpc.computeFixedPoint_loop A fuel cfg states q = Fatal e → ¬ merge_assertion e.
Proof using Type.
  induction fuel as [|fuel IH]; intros cfg states q e Hstates; simpl; [done|].
  destruct q as [|block q]; [done|].
  intros [Hderef|(b & Hb & Hrest)]%bind_Fatal.
  { unfold deref in Hderef. destruct (cfg !! block); [done|].
    injection Hderef as <-. unfold merge_assertion. intros [?|[?|?]]; done. }
  apply bind_Fatal in Hrest as [Hprocess|(r & Hr & Hrest)].
  { by eapply processBB_Fatal. }
  simpl in Hr. apply processBB_Ok in Hr as ->. simpl in Hrest.
  assert (levels_recorded (set_all (block_writes arguments b) (default ∅ (states !! block))))
    as Hending.
  { apply levels_recorded_set_all. destruct (states !! block) as [m|] eqn:Hm; simpl.
    - by eapply Hstates.
    - intros x. by rewrite lookup_empty. }
  destruct (propagate_all_recorded _ (successors b) Hending states q Hstates)
    as (st & Hst & Hrec).
  rewrite Hst in Hrest. simpl in Hrest. by eapply IH.
Qed.
End no_merge_assertion.

(** C7.  The fixed-point computation never stops at an assertion of
    [merge] or [mergeBlank], whatever the graph and the fuel: [Undefined]
    is never handed to either.  On recorded levels [merge] returns
    [PotentiallyDefined] if either argument is [PotentiallyDefined] and
    [Defined] otherwise, and [mergeBlank] returns [PotentiallyDefined]. *)
Theorem merge_assertions_never_fire :
  (∀ fuel arguments cfg e,
     fpc.computeFixedPoint (DefinednessBBAnalyzer_new arguments) fuel cfg = Fatal e →
     e ≠ assert_merge_from ∧ e ≠ assert_merge_into ∧ e ≠ assert_mergeBlank) ∧
  (∀ from into,
     from ≠ Undefined → into ≠ Undefined →
     DefinednessBBAnalyzer.merge from into
     = Ok (if decide (from = PotentiallyDefined ∨ into = PotentiallyDefined)
           then PotentiallyDefined else Defined)) ∧
  (∀ into, into ≠ Undefined →
     DefinednessBBAnalyzer.mergeBlank into = Ok PotentiallyDefined).
Proof.
  split_and!.
  - intros fuel arguments cfg e. unfold fpc.computeFixedPoint.
    intros [Hderef|(b & _ & Hloop)]%bind_Fatal.
    + unfold deref in Hderef. destruct (cfg !! 0); [done|]. by injection Hderef as <-.
    + apply loop_no_merge_assertion in Hloop.
      * unfold merge_assertion in Hloop. split_and!; intros ->; apply Hloop; auto.
      * intros i m. destruct (decide (i = 0)) as [->|Hne].
        -- rewrite lookup_singleton_eq. intros [= <-] x. by rewrite lookup_empty.
        -- by rewrite lookup_singleton_ne.
  - intros from into Hfrom Hinto. unfold DefinednessBBAnalyzer.merge.
    rewrite !decide_False by done.
    by destruct (decide (from = PotentiallyDefined ∨ into = PotentiallyDefined)).
  - intros into Hinto. unfold DefinednessBBAnalyzer.mergeBlank.
    by rewrite decide_False.
Qed.

(** [merge_assertions_never_fire] where the computation does stop: on a
    statement the visitor does not handle it stops in the visitor, not in
    an assertion of the analyzer; and on two recorded levels. *)
Lemma merge_assertions_never_fire_witness :
  (abort_unhandled_node ≠ assert_merge_from ∧
   abort_unhandled_node ≠ assert_merge_into ∧
   abort_unhandled_node ≠ assert_mergeBlank) ∧
  DefinednessBBAnalyzer.merge Defined PotentiallyDefined
  = Ok (if decide (Defined = PotentiallyDefined ∨ PotentiallyDefined = PotentiallyDefined)
        then PotentiallyDefined else Defined) ∧
  DefinednessBBAnalyzer.mergeBlank Defined = Ok PotentiallyDefined.
Proof.
  split; [|split].
  - refine (proj1 merge_assertions_never_fire 3 None unhandled_statement
              abort_unhandled_node eq_refl).
  - refine (proj1 (proj2 merge_assertions_never_fire) Defined PotentiallyDefined _ _);
      discriminate.
  - refine (proj2 (proj2 merge_assertions_never_fire) Defined _). discriminate.
Defined.

(** ** The fixed point and the paths *)

Lemma grows_refl names n st : grows names n st st.
Proof.
  split_and!; [| |done|by left|lia].
  - intros i m Hi. exists m. split_and!; [done|apply below_refl|by left].
  - intros i -> [? [=]].
Qed.

Lemma grows_trans names n st1 st2 st3 :
  grows names n st1 st2 → grows names n st2 st3 → grows names n st1 st3.
Proof.
  intros (Hm12 & Hn12 & Hq12 & Hk12 & Hp12) (Hm23 & Hn23 & Hq23 & Hk23 & Hp23). split_and!.
  - intros i m1 H1. destruct (Hm12 i m1 H1) as (m2 & H2 & Hb12 & Hc12).
    destruct (Hm23 i m2 H2) as (m3 & H3 & Hb23 & Hc23).
    exists m3. split_and!; [done|by eapply below_trans|].
    destruct Hc23 as [->|?]; [|by right].
    destruct Hc12 as [->|?]; [by left|right; by apply Hq23].
  - intros i H1 H3. destruct (st2.1 !! i) as [m2|] eqn:H2.
    + apply Hq23, Hn12; [done|by eexists].
    + by apply Hn23.
  - intros i Hi. by apply Hq23, Hq12.
  - intros i [Hi|Hi]%Hk23; [|by right].
    destruct (Hk12 i Hi) as [?|[m2 H2]]; [by left|right].
    destruct (Hm23 i m2 H2) as (m3 & -> & _). by eexists.
  - lia.
Qed.

Lemma join_is_Some a b : is_Some (join a b) → is_Some a ∨ is_Some b.
Proof. destruct a, b; simpl; eauto. Qed.

Lemma join_unwritten a b :
  join a b = None ∨ join a b = Some PotentiallyDefined →
  (a = None ∨ a = Some PotentiallyDefined) ∨ (b = None ∨ b = Some PotentiallyDefined).
Proof.
  destruct a as [a|], b as [b|]; simpl; eauto.
  destruct (decide (a = PotentiallyDefined ∨ b = PotentiallyDefined)) as [[->| ->]|];
    [eauto|eauto|]. intros [[=]|[=]].
Qed.

Lemma settled_refl cfg : settled cfg cfg.
Proof.
  unfold settled. induction cfg as [|b l IH]; [constructor|].
  constructor; [by left|apply IH].
Qed.

Section lattice.
Variables (arguments : option AST_arguments) (cfg : CFG).
Hypothesis Hclosed : cfg_closed cfg.
Hypothesis Hanalyzable : cfg_analyzable arguments cfg.

Local Abbreviation A := (DefinednessBBAnalyzer_new arguments).
Local Abbreviation names := (all_writes arguments cfg).

Lemma block_writes_all i b x :
  cfg !! i = Some b → x ∈ block_writes arguments b → x ∈ names.
Proof using Type.
  intros Hb Hx. unfold all_writes. apply list_elem_of_In, in_flat_map.
  exists b. split; apply list_elem_of_In; [by eapply list_elem_of_lookup_2|done].
Qed.

Lemma settled_processBB b bk m :
  analyzable arguments b → bk = b ∨ bk = visited_block b →
  processBB arguments m bk = Ok (set_all (block_writes arguments b) m, visited_block b).
Proof using Type.
  intros Ha [-> | ->]; by destruct (processBB_spec _ _ Ha m).
Qed.

Lemma settled_insert cfg_k i b :
  settled cfg cfg_k → cfg !! i = Some b → settled cfg (<[i := visited_block b]> cfg_k).
Proof using Type.
  intros Hs Hb. unfold settled. rewrite <- (list_insert_id cfg i b Hb).
  apply Forall2_insert; [done|]. by right.
Qed.

(** One successor of a block whose exit state arrives there. *)
Lemma propagate_spec ending st j :
  sound arguments cfg st.1 → arrives arguments cfg ending j →
  ∃ st', fpc.propagate A ending st j = Ok st' ∧
         sound arguments cfg st'.1 ∧ grows names (length cfg) st st' ∧
         ∃ mj, st'.1 !! j = Some mj ∧ below ending mj.
Proof using Type.
  destruct st as [states q]. simpl.
  intros Hsound (Hj & Hrec & Hnames & Hw & Hu). unfold fpc.propagate. simpl.
  destruct (states !! j) as [next|] eqn:Hnext; simpl.
  - destruct (Hsound j next Hnext) as (_ & Hrecn & Hnamesn & Hwn & Hun).
    destruct (feed_spec arguments ending next Hrec Hrecn) as (next' & -> & Hjoin). simpl.
    destruct (join_below ending next next' Hjoin) as (Hrec' & Hbe & Hbn).
    assert (∀ x, maybe_written next' x → maybe_written ending x ∨ maybe_written next x)
      as Hw'.
    { intros x. unfold maybe_written. rewrite Hjoin. apply join_is_Some. }
    assert (∀ x, maybe_unwritten next' x → maybe_unwritten ending x ∨ maybe_unwritten next x)
      as Hu'.
    { intros x. unfold maybe_unwritten. rewrite Hjoin. apply join_unwritten. }
    eexists. split; [done|]. simpl. split_and!.
    + intros i m. destruct (decide (j = i)) as [<-|Hne].
      * rewrite lookup_insert_eq. intros [= <-]. split_and!; [done|done| | |].
        -- intros x [?|?]%Hw'; auto.
        -- intros x [?|?]%Hw'; auto.
        -- intros x [?|?]%Hu'; auto.
      * rewrite lookup_insert_ne by done. apply Hsound.
    + split_and!; simpl.
      * intros i m Hi. destruct (decide (j = i)) as [<-|Hne].
        -- assert (m = next) as -> by congruence.
           exists next'. rewrite lookup_insert_eq. split_and!; [done|done|].
           destruct (decide (next' = next)) as [|Hne]; [by left|right].
           rewrite bool_decide_eq_true_2 by done. apply elem_of_push. by left.
        -- exists m. rewrite lookup_insert_ne by done.
           split_and!; [done|apply below_refl|by left].
      * intros i Hi. destruct (decide (j = i)) as [<-|Hne]; [congruence|].
        rewrite lookup_insert_ne by done. rewrite Hi. by intros [? [=]].
      * intros i Hi. destruct (bool_decide (next' ≠ next)); [|done].
        apply elem_of_push. by right.
      * intros i Hi. destruct (bool_decide (next' ≠ next)); [|by left].
        apply elem_of_push in Hi as [->|Hi]; [right|by left].
        rewrite lookup_insert_eq. by eexists.
      * destruct (decide (next' = next)) as [->|Hne].
        -- rewrite bool_decide_eq_false_2 by (intros ?; done).
           by rewrite (insert_id _ _ _ Hnext).
        -- rewrite bool_decide_eq_true_2 by done. rewrite length_push.
           assert (potential names (length cfg) states
                   < potential names (length cfg) (<[j:=next']> states)); [|lia].
           apply potential_insert_lt; [done|]. rewrite Hnext.
           apply below_strict; [done|done|done| |done].
           intros x [?|?]%Hw'; auto.
    + exists next'. by rewrite lookup_insert_eq.
  - rewrite (feed_initial arguments ending Hrec). simpl.
    eexists. split; [done|]. simpl. split_and!.
    + intros i m. destruct (decide (j = i)) as [<-|Hne].
      * rewrite lookup_insert_eq. intros [= <-]. done.
      * rewrite lookup_insert_ne by done. apply Hsound.
    + split_and!; simpl.
      * intros i m Hi. destruct (decide (j = i)) as [<-|Hne]; [congruence|].
        exists m. rewrite lookup_insert_ne by done.
        split_and!; [done|apply below_refl|by left].
      * intros i Hi Hi'. destruct (decide (j = i)) as [<-|Hne].
        -- apply elem_of_push. by left.
        -- rewrite lookup_insert_ne, Hi in Hi' by done. by destruct Hi' as [? [=]].
      * intros i Hi. apply elem_of_push. by right.
      * intros i [->|Hi]%elem_of_push; [right|by left].
        rewrite lookup_insert_eq. by eexists.
      * rewrite length_push.
        assert (potential names (length cfg) states
                < potential names (length cfg) (<[j:=ending]> states)); [|lia].
        apply potential_insert_lt; [done|]. rewrite Hnext. simpl. lia.
    + exists ending. rewrite lookup_insert_eq. split; [done|apply below_refl].
Qed.

(** All successors of a block. *)
Lemma propagate_all_spec ending succs :
  ∀ st, sound arguments cfg st.1 →
  (∀ j, j ∈ succs → arrives arguments cfg ending j) →
  ∃ st', foldM (fpc.propagate A ending) succs st = Ok st' ∧
         sound arguments cfg st'.1 ∧ grows names (length cfg) st st' ∧
         ∀ j, j ∈ succs → ∃ mj, st'.1 !! j = Some mj ∧ below ending mj.
Proof using Type.
  induction succs as [|j succs IH]; intros st Hsound Harrives; simpl.
  - exists st. split_and!; [done|done|apply grows_refl|]. by intros j ?%elem_of_nil.
  - destruct (propagate_spec ending st j Hsound) as (st1 & -> & Hsound1 & Hgrows1 & Hj).
    { apply Harrives. by left. }
    simpl. destruct (IH st1 Hsound1) as (st2 & -> & Hsound2 & Hgrows2 & Hsuccs).
    { intros i Hi. apply Harrives. by right. }
    exists st2. split_and!; [done|done|by eapply grows_trans|].
    intros i [->|Hi]%elem_of_cons; [|by apply Hsuccs].
    destruct Hj as (mj & Hmj & Hbelow).
    destruct Hgrows2 as (Hmaps & _). destruct (Hmaps _ _ Hmj) as (mj' & Hmj' & Hb & _).
    exists mj'. split; [done|by eapply below_trans].
Qed.

Lemma arrives_path m i : arrives arguments cfg m i → ∃ l, entry_path cfg l i.
Proof using Type.
  intros (_ & _ & _ & Hw & Hu).
  destruct (m !! ""%string) as [lvl|] eqn:Hx.
  - destruct (Hw ""%string) as (l & Hl & _); [by eexists|by exists l].
  - destruct (Hu ""%string) as (l & Hl & _); [by left|by exists l].
Qed.

(** The exit state of a block arrives at each of its successors. *)
Lemma arrives_step m i b j :
  arrives arguments cfg m i → cfg !! i = Some b → j ∈ successors b →
  arrives arguments cfg (set_all (block_writes arguments b) m) j.
Proof using Hclosed.
  intros Harr Hb Hj. pose proof (arrives_path _ _ Harr) as (l0 & Hl0).
  destruct Harr as (Hi & Hrec & Hnames & Hw & Hu).
  assert (edge cfg i j) as Hedge by by exists b.
  assert (∀ x, writes arguments cfg x i ↔ x ∈ block_writes arguments b) as Hwrites.
  { intros x. split; [|by exists b]. intros (b' & Hb' & Hx). congruence. }
  split_and!.
  - by eapply Hclosed.
  - by apply levels_recorded_set_all.
  - intros x. unfold maybe_written. rewrite lookup_set_all.
    destruct (decide (x ∈ block_writes arguments b)); [intros _|apply Hnames].
    by eapply block_writes_all.
  - intros x. unfold maybe_written. rewrite lookup_set_all.
    destruct (decide (x ∈ block_writes arguments b)) as [Hx|Hx].
    + intros _. exists (l0 ++ [i]). split; [by apply entry_path_edge|].
      exists i. split; [|by apply Hwrites]. apply elem_of_app. right. by left.
    + intros (l & Hl & p & Hp & Hwp)%Hw. exists (l ++ [i]).
      split; [by apply entry_path_edge|]. exists p. split; [|done].
      apply elem_of_app. by left.
  - intros x. unfold maybe_unwritten. rewrite lookup_set_all.
    destruct (decide (x ∈ block_writes arguments b)) as [Hx|Hx]; [by intros [?|?]|].
    intros (l & Hl & Hnw)%Hu. exists (l ++ [i]).
    split; [by apply entry_path_edge|]. intros (p & Hp & Hwp).
    apply elem_of_app in Hp as [Hp|Hp].
    + apply Hnw. by exists p.
    + apply list_elem_of_singleton in Hp as ->. by apply Hx, Hwrites.
Qed.

(** The worklist loop: with enough fuel it ends, in a state that is true
    of the paths and in which every reached block is accounted for in its
    successors. *)
Lemma computeFixedPoint_loop_spec fuel :
  ∀ cfg_k states q,
  settled cfg cfg_k →
  entry_unwritten states →
  sound arguments cfg states →
  (∀ j, j ∈ q → is_Some (states !! j)) →
  (∀ i, is_Some (states !! i) → i ∈ q ∨ fed arguments cfg states i) →
  length q + rounds arguments cfg < fuel + potential names (length cfg) states →
  ∃ states' cfg',
    fpc.computeFixedPoint_loop A fuel cfg_k states q = Ok (states', cfg') ∧
    settled cfg cfg' ∧ entry_unwritten states' ∧ sound arguments cfg states' ∧
    ∀ i, is_Some (states' !! i) → fed arguments cfg states' i.
Proof using Hclosed Hanalyzable.
  induction fuel as [|fuel IH]; intros cfg_k states q Hsettled Hentry Hsound Hq Hfed Hfuel.
  { pose proof (potential_bound names (length cfg) states). unfold rounds in Hfuel. lia. }
  destruct q as [|i q]; simpl.
  { exists states, cfg_k. split_and!; [done|done|done|done|].
    intros i Hi. destruct (Hfed i Hi) as [?%elem_of_nil|?]; done. }
  destruct (Hq i) as [m Hm]; [by left|].
  pose proof (Hsound i m Hm) as Harr. pose proof Harr as (Hi & _).
  destruct (lookup_lt_is_Some_2 cfg i Hi) as [b Hb].
  destruct (Forall2_lookup_l _ _ _ _ _ Hsettled Hb) as (bk & Hbk & Hform).
  unfold deref. rewrite Hbk, Hm. simpl.
  rewrite (settled_processBB b bk m (Hanalyzable _ _ Hb) Hform). simpl.
  destruct (propagate_all_spec (set_all (block_writes arguments b) m) (successors b)
              (states, q) Hsound)
    as ([states' q'] & -> & Hsound' & Hgrows & Hsuccs).
  { intros j Hj. by eapply arrives_step. }
  simpl in *. destruct Hgrows as (Hmaps & Hnew & Hqq & Hkeys & Hpot). simpl in *.
  apply IH.
  - by apply settled_insert.
  - destruct Hentry as (m0 & Hm0 & Hu0).
    destruct (Hmaps _ _ Hm0) as (m0' & Hm0' & Hb0 & _).
    exists m0'. split; [done|]. intros x. by apply Hb0.
  - done.
  - intros j [Hj|Hj]%Hkeys; [|done].
    destruct (Hq j) as [mj Hmj]; [by right|].
    destruct (Hmaps _ _ Hmj) as (mj' & -> & _). by eexists.
  - intros k [mk' Hmk'].
    destruct (states !! k) as [mk|] eqn:Hmk.
    + destruct (Hmaps _ _ Hmk) as (mk2 & Hmk2 & Hbk2 & [->|Hkq]); [|by left].
      assert (mk' = mk) as -> by congruence.
      destruct (decide (k = i)) as [->|Hne].
      * right. intros m1 b1 Hm1 Hb1 j Hj.
        assert (m1 = m) as -> by congruence. assert (b1 = b) as -> by congruence.
        by apply Hsuccs.
      * destruct (Hfed k) as [Hkq|Hkfed]; [by eexists| |].
        -- apply elem_of_cons in Hkq as [->|Hkq]; [done|]. left. by apply Hqq.
        -- right. intros m1 b1 Hm1 Hb1 j Hj.
           assert (m1 = mk) as -> by congruence.
           destruct (Hkfed mk b1 Hmk Hb1 j Hj) as (mj & Hmj & Hbelow).
           destruct (Hmaps _ _ Hmj) as (mj' & Hmj' & Hbj & _).
           exists mj'. split; [done|by eapply below_trans].
    + left. apply Hnew; [done|by eexists].
  - lia.
Qed.

(** At the fixed point the entry map of a block says of every path to
    it whether the path writes a name. *)
Lemma fixed_point_paths states :
  entry_unwritten states →
  (∀ i, is_Some (states !! i) → fed arguments cfg states i) →
  ∀ l i, entry_path cfg l i →
  ∃ m, states !! i = Some m ∧
       ∀ x, (written_on arguments cfg x l → maybe_written m x) ∧
            (¬ written_on arguments cfg x l → maybe_unwritten m x).
Proof using Type.
  intros (m0 & Hm0 & Hu0) Hfed l i Hpath.
  induction Hpath as [|l p j Hpath (mp & Hmp & IH) (b & Hb & Hj)].
  - exists m0. split; [done|]. intros x. split; [|by intros _].
    by intros (p & ?%elem_of_nil & _).
  - destruct (Hfed p (ltac:(by eexists)) mp b Hmp Hb j Hj) as (mj & Hmj & Hbelow).
    exists mj. split; [done|]. intros x. destruct (Hbelow x) as [Hw Hu].
    destruct (IH x) as [IHw IHu]. split.
    + intros (k & Hk & Hwk). apply Hw. unfold maybe_written. rewrite lookup_set_all.
      apply elem_of_app in Hk as [Hk|Hk].
      * destruct (decide (x ∈ block_writes arguments b)); [done|].
        apply IHw. by exists k.
      * apply list_elem_of_singleton in Hk as ->.
        destruct Hwk as (b' & Hb' & Hx). rewrite decide_True; [done|]. congruence.
    + intros Hnw. apply Hu. unfold maybe_unwritten. rewrite lookup_set_all.
      rewrite decide_False.
      * apply IHu. intros (k & Hk & Hwk). apply Hnw. exists k. split; [|done].
        apply elem_of_app. by left.
      * intros Hx. apply Hnw. exists p. split; [|by exists b].
        apply elem_of_app. right. by left.
Qed.

(** The fixed-point computation on a well-formed graph. *)
Lemma computeFixedPoint_spec fuel :
  0 < length cfg →
  rounds arguments cfg < fuel →
  ∃ states cfg',
    fpc.computeFixedPoint A fuel cfg = Ok (states, cfg') ∧
    settled cfg cfg' ∧ entry_unwritten states ∧ sound arguments cfg states ∧
    ∀ i, is_Some (states !! i) → fed arguments cfg states i.
Proof using Hclosed Hanalyzable.
  intros Hlen Hfuel. unfold fpc.computeFixedPoint, deref.
  destruct (lookup_lt_is_Some_2 cfg 0 Hlen) as [b0 Hb0]. rewrite Hb0. simpl.
  apply computeFixedPoint_loop_spec.
  - apply settled_refl.
  - exists ∅. split; [by rewrite lookup_singleton_eq|]. intros x. by left.
  - intros i m. destruct (decide (i = 0)) as [->|Hne].
    + rewrite lookup_singleton_eq. intros [= <-]. split_and!; [done|done| | |].
      * by intros x [? ?].
      * by intros x [? ?].
      * intros x _. exists []. split; [constructor|].
        by intros (p & ?%elem_of_nil & _).
    + by rewrite lookup_singleton_ne.
  - intros j ->%list_elem_of_singleton. rewrite lookup_singleton_eq. by eexists.
  - intros i [m Hi]. left. destruct (decide (i = 0)) as [->|Hne]; [by left|].
    by rewrite lookup_singleton_ne in Hi.
  - assert (potential names (length cfg) ∅
            < potential names (length cfg) (<[0:=∅]> ∅)) as Hpot.
    { apply potential_insert_lt; [done|]. rewrite lookup_empty. simpl. lia. }
    rewrite insert_empty in Hpot. simpl. lia.
Qed.
End lattice.

(** C1, amended.  On a well-formed graph the definedness analysis, given
    fuel for the rounds of its worklist, returns, and the level it computes
    for a name at the entry of a block is: [Defined] when the block can be
    reached from the entry block and every path to it writes the name;
    [PotentiallyDefined] when some path writes it and some path does not;
    [Undefined], the name being absent from the block's map, when no path
    writes it, which includes every block that cannot be reached. *)
Theorem definedness_lattice_correct arguments cfg scope fuel :
  cfg_closed cfg → cfg_analyzable arguments cfg →
  0 < length cfg →
  rounds arguments cfg < fuel →
  ∃ da cfg',
    DefinednessAnalysis_new fuel arguments cfg scope = Ok (da, cfg') ∧
    ∀ name block,
      ((∃ l, entry_path cfg l block) →
       (∀ l, entry_path cfg l block → written_on arguments cfg name l) →
       (isDefinedAt name block da).1 = Defined) ∧
      ((∃ l, entry_path cfg l block ∧ written_on arguments cfg name l) →
       (∃ l, entry_path cfg l block ∧ ¬ written_on arguments cfg name l) →
       (isDefinedAt name block da).1 = PotentiallyDefined) ∧
      ((∀ l, entry_path cfg l block → ¬ written_on arguments cfg name l) →
       (isDefinedAt name block da).1 = Undefined ∧
       name ∉ dom (default ∅ (results da !! block))).
Proof.
  intros Hclosed Hanalyzable Hlen Hfuel.
  destruct (computeFixedPoint_spec arguments cfg Hclosed Hanalyzable fuel Hlen Hfuel)
    as (states & cfg' & Hrun & _ & Hentry & Hsound & Hfed).
  unfold DefinednessAnalysis_new. rewrite Hrun. simpl.
  eexists _, _. split; [done|]. intros name block.
  pose proof (fixed_point_paths arguments cfg states Hentry Hfed) as Hpaths.
  unfold isDefinedAt. simpl. split_and!.
  - intros [l0 Hl0] Hall.
    destruct (Hpaths l0 block Hl0) as (m & Hm & Hfacts). rewrite Hm. simpl.
    destruct (Hsound block m Hm) as (_ & Hrec & _ & _ & Hu).
    destruct (Hfacts name) as [Hw _]. destruct (Hw (Hall l0 Hl0)) as [lvl Hlvl].
    rewrite Hlvl. simpl. destruct lvl; [by destruct (Hrec name)|done|].
    destruct (Hu name) as (l & Hl & Hnw); [by right|]. by destruct (Hnw (Hall l Hl)).
  - intros (l1 & Hl1 & Hw1) (l2 & Hl2 & Hnw2).
    destruct (Hpaths l1 block Hl1) as (m & Hm & Hfacts1).
    destruct (Hpaths l2 block Hl2) as (m' & Hm' & Hfacts2).
    assert (m' = m) as -> by congruence. rewrite Hm. simpl.
    destruct (Hfacts1 name) as [Hw _]. destruct (Hfacts2 name) as [_ Hu].
    destruct (Hw Hw1) as [lvl Hlvl]. destruct (Hu Hnw2) as [Hnone|Hpd]; [congruence|].
    by rewrite Hpd.
  - intros Hnone.
    assert (default ∅ (states !! block) !! name = None) as Hlookup.
    { destruct (states !! block) as [m|] eqn:Hm; simpl; [|by rewrite lookup_empty].
      destruct (m !! name) as [lvl|] eqn:Hlvl; [|done].
      destruct (Hsound block m Hm) as (_ & _ & _ & Hw & _).
      destruct (Hw name) as (l & Hl & Hwl); [by eexists|]. by destruct (Hnone l Hl). }
    rewrite Hlookup. simpl. split; [done|]. by apply not_elem_of_dom.
Qed.

Lemma diamond_analyzable : cfg_analyzable None diamond.
Proof.
  intros i b Hi. each_block i Hi; eexists; reflexivity.
Qed.

(** [definedness_lattice_correct] on [diamond]. *)
Lemma definedness_lattice_correct_witness :
  ∃ da cfg',
    DefinednessAnalysis_new 9 None diamond no_globals = Ok (da, cfg') ∧
    ∀ name block,
      ((∃ l, entry_path diamond l block) →
       (∀ l, entry_path diamond l block → written_on None diamond name l) →
       (isDefinedAt name block da).1 = Defined) ∧
      ((∃ l, entry_path diamond l block ∧ written_on None diamond name l) →
       (∃ l, entry_path diamond l block ∧ ¬ written_on None diamond name l) →
       (isDefinedAt name block da).1 = PotentiallyDefined) ∧
      ((∀ l, entry_path diamond l block → ¬ written_on None diamond name l) →
       (isDefinedAt name block da).1 = Undefined ∧
       name ∉ dom (default ∅ (results da !! block))).
Proof.
  apply (definedness_lattice_correct None diamond no_globals 9
           diamond_closed diamond_analyzable).
  - vm_compute. lia.
  - vm_compute. lia.
Defined.

(** The levels of [x] in that graph: [PotentiallyDefined] at the merge,
    [Undefined] at the entry of either arm. *)
Example diamond_levels :
  ∃ da, DefinednessAnalysis_new 9 None diamond no_globals = Ok (da, diamond) ∧
        (isDefinedAt "x" 3 da).1 = PotentiallyDefined ∧
        (isDefinedAt "x" 2 da).1 = Undefined ∧
        (isDefinedAt "x" 1 da).1 = Undefined.
Proof. eexists. split_and!; vm_compute; reflexivity. Qed.

(** C1 as stated fails on a block that cannot be reached.  In
    [dead_code] no path leads to block 1, so every path to it writes [x];
    the analysis never reaches the block, and the level of [x] there is
    [Undefined], not [Defined]. *)
Lemma unreachable_block_is_Undefined :
  ∃ da,
    DefinednessAnalysis_new 5 None dead_code no_globals = Ok (da, dead_code) ∧
    (∀ l, entry_path dead_code l 1 → written_on None dead_code "x" l) ∧
    (isDefinedAt "x" 1 da).1 = Undefined ∧
    (isDefinedAt "x" 1 da).1 ≠ Defined.
Proof.
  eexists. split_and!.
  - vm_compute. reflexivity.
  - intros l Hl. exfalso. inversion Hl as [|l' p b Hp (b' & Hb' & Hin)]; subst.
    each_block p Hb'; simpl in Hin; by apply elem_of_nil in Hin.
  - vm_compute. reflexivity.
  - vm_compute. discriminate.
Qed.

(** The scenarios of a straight line and of a loop. *)
Example straight_line_levels :
  ∃ da, DefinednessAnalysis_new 7 None straight_line no_globals = Ok (da, straight_line) ∧
        (isDefinedAt "x" 2 da).1 = Defined.
Proof. eexists. split; vm_compute; reflexivity. Qed.

Example while_loop_levels :
  ∃ da, DefinednessAnalysis_new 13 None while_loop no_globals = Ok (da, while_loop) ∧
        (isDefinedAt "x" 1 da).1 = Defined ∧
        (isDefinedAt "y" 1 da).1 = PotentiallyDefined ∧
        (isDefinedAt "y" 2 da).1 = PotentiallyDefined ∧
        (isDefinedAt "y" 3 da).1 = PotentiallyDefined.
Proof. eexists. split_and!; vm_compute; reflexivity. Qed.

(** ** The construction returns *)

Lemma foldM_Ok {X Y} (f : Y → X → result Y) (l : list X) :
  (∀ b x, x ∈ l → ∃ b', f b x = Ok b') → ∀ b, ∃ r, foldM f l b = Ok r.
Proof.
  induction l as [|x l IH]; intros Hf b; simpl; [by eexists|].
  destruct (Hf b x) as [b' ->]; [by left|]. simpl.
  apply IH. intros b0 y Hy. apply Hf. by right.
Qed.

(** The liveness visitor does not look at what a visit of the
    definedness visitor changes. *)
Lemma accept_stmt_visited v s : accept_stmt v (visited_stmt s) = accept_stmt v s.
Proof. by destruct s. Qed.

Lemma classify_visited b : classify (visited_block b) = classify b.
Proof.
  unfold classify. simpl. generalize LivenessBBVisitor_new.
  induction (body b) as [|s l IH]; intros v; simpl; [done|].
  rewrite accept_stmt_visited. destruct (accept_stmt v s); simpl; [apply IH|done|done].
Qed.

Lemma settled_lookup cfg cfg' i b' :
  settled cfg cfg' → cfg' !! i = Some b' →
  ∃ b, cfg !! i = Some b ∧ (b' = b ∨ b' = visited_block b).
Proof. intros Hs Hb'. by apply (Forall2_lookup_r _ _ _ _ _ Hs Hb'). Qed.

Lemma settled_closed cfg cfg' : settled cfg cfg' → cfg_closed cfg → cfg_closed cfg'.
Proof.
  intros Hs Hclosed i b' j Hb' Hj.
  destruct (settled_lookup _ _ _ _ Hs Hb') as (b & Hb & Hform).
  rewrite <- (Forall2_length _ _ _ Hs). apply (Hclosed i b j Hb).
  by destruct Hform as [-> | ->].
Qed.

Lemma settled_preds_closed cfg cfg' : settled cfg cfg' → preds_closed cfg → preds_closed cfg'.
Proof.
  intros Hs Hclosed i b' j Hb' Hj.
  destruct (settled_lookup _ _ _ _ Hs Hb') as (b & Hb & Hform).
  rewrite <- (Forall2_length _ _ _ Hs). apply (Hclosed i b j Hb).
  by destruct Hform as [-> | ->].
Qed.

Lemma settled_tagged cfg cfg' : settled cfg cfg' → cfg_tagged cfg → cfg_tagged cfg'.
Proof.
  intros Hs Htagged i b' Hb'.
  destruct (settled_lookup _ _ _ _ Hs Hb') as (b & Hb & [-> | ->]).
  - by eapply Htagged.
  - rewrite classify_visited. by eapply Htagged.
Qed.

Lemma settled_edges cfg cfg' : settled cfg cfg' → edges cfg' = edges cfg.
Proof.
  unfold settled, edges. induction 1 as [|b b' l l' Hform _ IH]; simpl; [done|].
  rewrite IH. by destruct Hform as [-> | ->].
Qed.

(** [isLiveAtEnd] returns on a well-formed graph. *)
Lemma isLiveAtEnd_returns cfg name block fuel :
  cfg_closed cfg → cfg_tagged cfg → block < length cfg → 2 * edges cfg < fuel →
  ∃ r, isLiveAtEnd fuel cfg name block = Ok r.
Proof.
  intros Hclosed Htagged Hblock Hfuel.
  destruct (lookup_lt_is_Some_2 cfg block Hblock) as [b Hb].
  unfold isLiveAtEnd, deref. rewrite Hb. simpl.
  destruct (decide (length (successors b) = 0)); [by eexists|].
  destruct (isLiveAtEnd_loop_spec cfg name Hclosed Htagged fuel ∅ (successors b))
    as (r & Hr & _).
  - rewrite unvisited_from_empty. pose proof (edges_lookup _ _ _ Hb). lia.
  - intros j Hj. by eapply Hclosed.
  - set_solver.
  - by exists r.
Qed.

(** On a well-formed graph, with fuel for the worklist and for the
    liveness queries, the construction of the phi analysis returns; the
    graph it leaves has every block as it was or as a visit leaves it. *)
Theorem PhiAnalysis_new_returns arguments cfg scope fuel :
  cfg_closed cfg → preds_closed cfg → cfg_tagged cfg → cfg_analyzable arguments cfg →
  0 < length cfg →
  rounds arguments cfg < fuel → 2 * edges cfg < fuel →
  ∃ phi cfg', PhiAnalysis_new fuel arguments cfg scope = Ok (phi, cfg') ∧ settled cfg cfg'.
Proof.
  intros Hclosed Hpreds Htagged Hanalyzable Hlen Hrounds Hedges.
  destruct (computeFixedPoint_spec arguments cfg Hclosed Hanalyzable fuel Hlen Hrounds)
    as (states & cfg' & Hrun & Hsettled & _).
  unfold PhiAnalysis_new, DefinednessAnalysis_new. rewrite Hrun. simpl.
  pose proof (settled_closed _ _ Hsettled Hclosed) as Hclosed'.
  pose proof (settled_preds_closed _ _ Hsettled Hpreds) as Hpreds'.
  pose proof (settled_tagged _ _ Hsettled Htagged) as Htagged'.
  pose proof (settled_edges _ _ Hsettled) as Hedges'.
  match goal with |- context [foldM ?f ?l ?b0] =>
    cut (∃ r, foldM f l b0 = Ok r); [intros [st ->]|apply foldM_Ok] end.
  { simpl. by eexists _, _. }
  - intros st [i b] Hib. apply elem_of_lookup_imap in Hib as (i' & b' & [= -> ->] & Hb).
    unfold phi_block. simpl.
    destruct (decide (length (predecessors b') < 2)) as [|Hge]; [by eexists|].
    rewrite decide_False by lia. simpl.
    destruct (predecessors b') as [|pred0 preds] eqn:Hp; [simpl in Hge; lia|]. simpl.
    match goal with |- context [foldM ?f ?l ?b0] =>
      cut (∃ r, foldM f l b0 = Ok r); [intros [required ->]|apply foldM_Ok] end.
    { simpl. by eexists. }
    + intros required name _. unfold required_at.
      destruct (isLiveAtEnd_returns cfg' name pred0 fuel Hclosed' Htagged') as [live ->].
      * apply (Hpreds' i' b' pred0 Hb). rewrite Hp. by left.
      * lia.
      * simpl. by eexists.
Qed.

Lemma diamond_preds_closed : preds_closed diamond.
Proof.
  intros i b j Hi Hj. each_block i Hi; simpl in *; set_unfold; lia.
Qed.

(** [PhiAnalysis_new_returns] on [diamond]. *)
Lemma PhiAnalysis_new_returns_witness :
  ∃ phi cfg', PhiAnalysis_new 9 None diamond no_globals = Ok (phi, cfg') ∧
              settled diamond cfg'.
Proof.
  apply (PhiAnalysis_new_returns None diamond no_globals 9
           diamond_closed diamond_preds_closed diamond_tagged diamond_analyzable).
  - vm_compute. lia.
  - vm_compute. lia.
  - vm_compute. lia.
Defined.



(** * Further properties of the code *)

(** ** When the visitors abort *)

Lemma foldM_Fatal_first {X Y} (f : Y → X → result Y) (ok : X → bool) (e : fatal)
    (l : list X) :
  (∀ b x, x ∈ l → if ok x then ∃ b', f b x = Ok b' else f b x = Fatal e) →
  ∀ b, if forallb ok l then ∃ b', foldM f l b = Ok b' else foldM f l b = Fatal e.
Proof.
  induction l as [|x l IH]; intros Hf b; simpl; [by eexists|].
  pose proof (Hf b x ltac:(by left)) as Hx.
  destruct (ok x); simpl.
  - destruct Hx as [b' ->]. simpl. apply IH. intros b0 y Hy. apply Hf. by right.
  - by rewrite Hx.
Qed.

Lemma accept_expr_tagged e :
  ∀ v, if expr_tagged e then ∃ v', accept_expr e v = Ok v'
       else accept_expr e v = Fatal assert_ctx_type.
Proof.
  induction e as [id ctx| value attr IH | value slice IH1 IH2 | elts IH | ops IH]
    using AST_expr_nested_ind; intros v; simpl.
  - destruct ctx; simpl; by eauto.
  - apply IH.
  - specialize (IH1 v). destruct (expr_tagged value); simpl.
    + destruct IH1 as [v1 ->]. simpl. apply IH2.
    + by rewrite IH1.
  - apply (foldM_Fatal_first (λ v e, accept_expr e v) expr_tagged).
    intros b x Hx. rewrite Forall_forall in IH. by apply IH.
  - apply (foldM_Fatal_first (λ v e, accept_expr e v) expr_tagged).
    intros b x Hx. rewrite Forall_forall in IH. by apply IH.
Qed.

Lemma accept_exprs_tagged l :
  ∀ v, if forallb expr_tagged l then ∃ v', accept_exprs l v = Ok v'
       else accept_exprs l v = Fatal assert_ctx_type.
Proof.
  apply (foldM_Fatal_first (λ v e, accept_expr e v) expr_tagged).
  intros b x _. apply accept_expr_tagged.
Qed.

Lemma accept_opt_tagged o :
  ∀ v, if from_option expr_tagged true o then ∃ v', accept_opt o v = Ok v'
       else accept_opt o v = Fatal assert_ctx_type.
Proof. destruct o as [e|]; simpl; [apply accept_expr_tagged|by eauto]. Qed.

Lemma accept_stmt_tagged s :
  ∀ v, if stmt_tagged s then ∃ v', accept_stmt v s = Ok v'
       else accept_stmt v s = Fatal assert_ctx_type.
Proof.
  intros v. destruct s; simpl; try (by eauto);
    try apply accept_expr_tagged; try apply accept_exprs_tagged;
    try apply accept_opt_tagged.
  - pose proof (accept_expr_tagged value v) as Hv.
    destruct (expr_tagged value); simpl.
    + destruct Hv as [v1 ->]. simpl. apply accept_exprs_tagged.
    + by rewrite Hv.
  - pose proof (accept_opt_tagged dest v) as Hv.
    destruct (from_option expr_tagged true dest); simpl.
    + destruct Hv as [v1 ->]. simpl. apply accept_exprs_tagged.
    + by rewrite Hv.
Qed.

(** The classification of a block goes through exactly when every name
    node it reaches is tagged [Load] or [Store]; otherwise it stops at the
    assertion of [visit_name].  The bodies of class and function
    definitions are not reached. *)
Theorem classify_aborts_iff b :
  (forallb stmt_tagged (body b) = true → ∃ v, classify b = Ok v) ∧
  (forallb stmt_tagged (body b) = false → classify b = Fatal assert_ctx_type).
Proof.
  pose proof (foldM_Fatal_first accept_stmt stmt_tagged assert_ctx_type (body b)
                (λ v s _, accept_stmt_tagged s v) LivenessBBVisitor_new) as H.
  unfold classify. destruct (forallb stmt_tagged (body b)); split; done.
Qed.

(** [classify_aborts_iff] on a block whose names are tagged, and on one
    that reads a name tagged [Param]. *)
Lemma classify_aborts_iff_witness :
  (∃ v, classify {| idx := 3; body := [print_of "x"];
                    predecessors := [1; 2]; successors := [] |} = Ok v) ∧
  classify {| idx := 0; body := [assign_to "y"; AST_Expr (AST_Name "x" Param)];
              predecessors := []; successors := [] |} = Fatal assert_ctx_type.
Proof.
  split.
  - refine (proj1 (classify_aborts_iff
                     {| idx := 3; body := [print_of "x"];
                        predecessors := [1; 2]; successors := [] |}) eq_refl).
  - refine (proj2 (classify_aborts_iff
                     {| idx := 0; body := [assign_to "y"; AST_Expr (AST_Name "x" Param)];
                        predecessors := []; successors := [] |}) eq_refl).
Defined.

Lemma _doSet_supported t :
  ∀ m, if supported_target t then ∃ m', _doSet t m = Ok m'
       else _doSet t m = Fatal assert_unknown_target.
Proof.
  induction t as [id ctx| value attr IH | value slice IH1 IH2 | elts IH | ops IH]
    using AST_expr_nested_ind; intros m; simpl; try (by eauto).
  apply (foldM_Fatal_first (λ st e, _doSet e st) supported_target).
  intros b x Hx. rewrite Forall_forall in IH. by apply IH.
Qed.

Lemma _doSet_targets_supported targets :
  ∀ m, if forallb supported_target targets
       then ∃ m', foldM (λ st t, _doSet t st) targets m = Ok m'
       else foldM (λ st t, _doSet t st) targets m = Fatal assert_unknown_target.
Proof.
  apply (foldM_Fatal_first (λ st e, _doSet e st) supported_target).
  intros b x _. apply _doSet_supported.
Qed.

Lemma visit_stmt_supported s :
  ∀ st, if supported_stmt s then ∃ st', visit_stmt st s = Ok st'
        else ∃ e, visit_stmt st s = Fatal e ∧
                  (e = assert_unknown_target ∨ e = abort_unhandled_node).
Proof.
  intros st. destruct s; simpl; try (by eauto).
  - unfold visit_assign. pose proof (_doSet_targets_supported targets st.1) as H.
    destruct (forallb supported_target targets).
    + destruct H as [m' ->]. simpl. by eauto.
    + rewrite H. simpl. by eauto.
  - unfold visit_import. rewrite visit_import_spec. simpl. by eauto.
Qed.

Lemma visit_body_supported l :
  ∀ st, if forallb supported_stmt l then ∃ st', foldM visit_stmt l st = Ok st'
        else ∃ e, foldM visit_stmt l st = Fatal e ∧
                  (e = assert_unknown_target ∨ e = abort_unhandled_node).
Proof.
  induction l as [|s l IH]; intros st; simpl; [by eauto|].
  pose proof (visit_stmt_supported s st) as Hs.
  destruct (supported_stmt s); simpl.
  - destruct Hs as [st' ->]. simpl. apply IH.
  - destruct Hs as (e & -> & He). simpl. by eauto.
Qed.

Lemma visit_arguments_supported a :
  ∀ m, if supported_arguments a then ∃ m', visit_arguments a m = Ok m'
       else visit_arguments a m = Fatal assert_unknown_target.
Proof.
  intros m. unfold supported_arguments, visit_arguments.
  destruct (kwarg a) as [k|]; simpl.
  - pose proof (_doSet_supported k m) as Hk. destruct (supported_target k); simpl.
    + destruct Hk as [m1 ->]. simpl. apply _doSet_targets_supported.
    + by rewrite Hk.
  - apply _doSet_targets_supported.
Qed.

(** [processBB] goes through exactly when every statement of the block is
    of a kind the visitor overrides and every target (of an assignment,
    and of the parameter list for the block with index 0) is a name, an
    attribute, a subscript or a tuple of such; the starting map plays no
    part.  Otherwise it stops at the assertion of [_doSet] or in the
    aborting default of the base visitor. *)
Theorem processBB_aborts_iff arguments b :
  (block_supported arguments b = true →
   ∀ m, processBB arguments m b
        = Ok (set_all (block_writes arguments b) m, visited_block b)) ∧
  (block_supported arguments b = false →
   ∀ m, ∃ e, processBB arguments m b = Fatal e ∧
             (e = assert_unknown_target ∨ e = abort_unhandled_node)).
Proof.
  unfold block_supported. split.
  - intros [Hbody Hargs]%andb_true_iff m.
    assert (analyzable arguments b) as Ha; [|by destruct (processBB_spec _ _ Ha m)].
    unfold analyzable, processBB.
    pose proof (visit_body_supported (body b) (∅, [])) as H1. rewrite Hbody in H1.
    destruct H1 as [st' ->]. simpl.
    destruct arguments as [a|]; [|by eauto].
    destruct (decide (idx b = 0)); [|by eauto].
    pose proof (visit_arguments_supported a st'.1) as H2. rewrite Hargs in H2.
    destruct H2 as [m' ->]. simpl. by eauto.
  - intros Hno m. unfold processBB.
    pose proof (visit_body_supported (body b) (m, [])) as H1.
    destruct (forallb supported_stmt (body b)); simpl in Hno.
    + destruct H1 as [st' ->]. simpl.
      destruct arguments as [a|]; [|done].
      destruct (decide (idx b = 0)); [|done].
      pose proof (visit_arguments_supported a st'.1) as H2. rewrite Hno in H2.
      rewrite H2. simpl. by eauto.
    + destruct H1 as (e & -> & He). simpl. by eauto.
Qed.

(** [processBB_aborts_iff] on a block the visitor handles and on one with a
    statement it does not. *)
Lemma processBB_aborts_iff_witness :
  (∀ m, processBB None m {| idx := 1; body := [assign_to "x"; AST_Jump];
                            predecessors := [0]; successors := [3] |}
        = Ok (set_all ["x"%string] m,
              {| idx := 1; body := [assign_to "x"; AST_Jump];
                 predecessors := [0]; successors := [3] |})) ∧
  (∀ m, ∃ e, processBB None m {| idx := 0; body := [AST_OtherStmt []];
                                 predecessors := []; successors := [] |} = Fatal e ∧
             (e = assert_unknown_target ∨ e = abort_unhandled_node)).
Proof.
  split.
  - refine (proj1 (processBB_aborts_iff None
                     {| idx := 1; body := [assign_to "x"; AST_Jump];
                        predecessors := [0]; successors := [3] |}) eq_refl).
  - refine (proj2 (processBB_aborts_iff None
                     {| idx := 0; body := [AST_OtherStmt []];
                        predecessors := []; successors := [] |}) eq_refl).
Defined.

(** What [processBB] does to the map and to the block: every name the
    block writes ends [Defined], every other name keeps what the starting
    map had (so no entry is removed and none is set to another level), and
    the block keeps its index and its neighbours; its statements are the
    same up to the aliases that [visit_import] overwrites. *)
Theorem processBB_transfer arguments m b m' b' :
  processBB arguments m b = Ok (m', b') →
  (∀ x, m' !! x = if decide (x ∈ block_writes arguments b) then Some Defined else m !! x) ∧
  (∀ x lvl, m !! x = Some lvl → m' !! x = Some lvl ∨ m' !! x = Some Defined) ∧
  idx b' = idx b ∧ predecessors b' = predecessors b ∧ successors b' = successors b ∧
  body b' = visited_stmt <$> body b.
Proof.
  intros [= -> ->]%processBB_Ok. split_and!; try done.
  - intros x. apply lookup_set_all.
  - intros x lvl Hx. rewrite lookup_set_all.
    destruct (decide (x ∈ block_writes arguments b)); [by right|by left].
Qed.

(** [processBB_transfer] on the entry block of a function with a
    parameter [a], starting from a map in which [y] is potentially
    defined. *)
Lemma processBB_transfer_witness :
  (∀ x, <["a"%string := Defined]> (<["x"%string := Defined]>
           ({["y"%string := PotentiallyDefined]} : gmap string DefinitionLevel)) !! x
        = if decide (x ∈ block_writes (Some (mk_arguments [AST_Name "a" Param] None ""))
                          {| idx := 0; body := [assign_to "x"; AST_Jump];
                             predecessors := []; successors := [1] |})
          then Some Defined
          else ({["y"%string := PotentiallyDefined]} : gmap string DefinitionLevel) !! x) ∧
  (∀ x lvl, ({["y"%string := PotentiallyDefined]} : gmap string DefinitionLevel) !! x
            = Some lvl →
            <["a"%string := Defined]> (<["x"%string := Defined]>
              ({["y"%string := PotentiallyDefined]} : gmap string DefinitionLevel)) !! x
            = Some lvl ∨
            <["a"%string := Defined]> (<["x"%string := Defined]>
              ({["y"%string := PotentiallyDefined]} : gmap string DefinitionLevel)) !! x
            = Some Defined) ∧
  0 = 0 ∧ @nil nat = [] ∧ [1] = [1] ∧
  [assign_to "x"; AST_Jump] = visited_stmt <$> [assign_to "x"; AST_Jump].
Proof.
  refine (processBB_transfer (Some (mk_arguments [AST_Name "a" Param] None ""))
            {["y"%string := PotentiallyDefined]}
            {| idx := 0; body := [assign_to "x"; AST_Jump];
               predecessors := []; successors := [1] |}
            _ {| idx := 0; body := [assign_to "x"; AST_Jump];
                 predecessors := []; successors := [1] |} eq_refl).
Defined.

(** Visiting a block again: on the block that [processBB] left, from any
    map, [processBB] does what it does on the original block and leaves the
    block as it is.  The aliases are overwritten once. *)
Theorem processBB_again arguments m b m' b' :
  processBB arguments m b = Ok (m', b') →
  ∀ m2, processBB arguments m2 b' = processBB arguments m2 b ∧
        ∃ m2', processBB arguments m2 b' = Ok (m2', b').
Proof.
  intros Hrun. pose proof Hrun as [= -> ->]%processBB_Ok. intros m2.
  assert (analyzable arguments b) as Ha.
  { unfold analyzable, processBB in *.
    apply bind_Ok in Hrun as (r1 & Hbody & (m1 & Hargs & _)%bind_Ok).
    destruct (visit_body_spec _ _ _ Hbody (∅, [])) as [-> _]. simpl.
    destruct arguments as [a|]; [|by eexists].
    destruct (decide (idx b = 0)); [|by eexists].
    rewrite (visit_arguments_spec _ _ _ Hargs). by eexists. }
  destruct (processBB_spec _ _ Ha m2) as [-> ->]. by eauto.
Qed.

(** [processBB_again] on [import os as o], visited again from a map in
    which [o] is potentially defined. *)
Lemma processBB_again_witness :
  processBB None {["o"%string := PotentiallyDefined]}
    {| idx := 0; body := [AST_Import [{| alias_name := "o"; asname := "o" |}]];
       predecessors := []; successors := [] |}
  = processBB None {["o"%string := PotentiallyDefined]}
      {| idx := 0; body := [AST_Import [{| alias_name := "os"; asname := "o" |}]];
         predecessors := []; successors := [] |} ∧
  ∃ m2', processBB None {["o"%string := PotentiallyDefined]}
           {| idx := 0; body := [AST_Import [{| alias_name := "o"; asname := "o" |}]];
              predecessors := []; successors := [] |}
         = Ok (m2', {| idx := 0;
                       body := [AST_Import [{| alias_name := "o"; asname := "o" |}]];
                       predecessors := []; successors := [] |}).
Proof.
  refine (processBB_again None ∅
            {| idx := 0; body := [AST_Import [{| alias_name := "os"; asname := "o" |}]];
               predecessors := []; successors := [] |}
            _ _ eq_refl {["o"%string := PotentiallyDefined]}).
Defined.

(** ** What the analysis does to the graph *)

Lemma visited_block_idemp b : visited_block (visited_block b) = visited_block b.
Proof.
  unfold visited_block. simpl. f_equal. rewrite <- list_fmap_compose.
  apply list_fmap_ext. intros _ s _. apply visited_stmt_idemp.
Qed.

Lemma computeFixedPoint_loop_settled arguments cfg fuel :
  ∀ cfg_k states q r,
  settled cfg cfg_k →
  fpc.computeFixedPoint_loop (DefinednessBBAnalyzer_new arguments) fuel cfg_k states q = Ok r →
  settled cfg r.2.
Proof.
  induction fuel as [|fuel IH]; intros cfg_k states q r Hsettled; simpl; [done|].
  destruct q as [|i q]; [by intros [= <-]|].
  intros (bk & Hbk & (r1 & Hr1 & (st & _ & Hloop)%bind_Ok)%bind_Ok)%bind_Ok.
  simpl in Hr1. apply processBB_Ok in Hr1 as ->. simpl in Hloop.
  unfold deref in Hbk. destruct (cfg_k !! i) as [bk'|] eqn:Hi; [|done].
  injection Hbk as ->.
  destruct (settled_lookup _ _ _ _ Hsettled Hi) as (b & Hb & Hform).
  assert (visited_block bk = visited_block b) as Heq.
  { destruct Hform as [-> | ->]; [done|apply visited_block_idemp]. }
  rewrite Heq in Hloop. eapply IH; [|exact Hloop]. by apply settled_insert.
Qed.

Lemma PhiAnalysis_new_settled fuel arguments cfg scope phi cfg' :
  PhiAnalysis_new fuel arguments cfg scope = Ok (phi, cfg') → settled cfg cfg'.
Proof.
  intros (da0 & Hda0 & _)%PhiAnalysis_new_inv.
  unfold DefinednessAnalysis_new in Hda0.
  apply bind_Ok in Hda0 as (r & Hr & [= _ <-]).
  unfold fpc.computeFixedPoint in Hr. apply bind_Ok in Hr as (_ & _ & Hloop).
  eapply computeFixedPoint_loop_settled; [apply settled_refl|exact Hloop].
Qed.

Lemma alias_free_visited_block b : alias_free b = true → visited_block b = b.
Proof.
  unfold alias_free, visited_block. intros Hfree. destruct b as [i body0 p s]. simpl in *.
  f_equal. induction body0 as [|st l IH]; [done|]. simpl in Hfree.
  apply andb_true_iff in Hfree as [Hst Hl]. rewrite fmap_cons, (IH Hl). f_equal.
  destruct st; simpl in *; try done. f_equal.
  induction names as [|alias names IHn]; [done|]. simpl in Hst.
  apply andb_true_iff in Hst as [Ha Hn]. rewrite fmap_cons, (IHn Hn). f_equal.
  unfold stored_alias. apply bool_decide_eq_true in Ha. by rewrite decide_False by lia.
Qed.

(** The graph that the construction of the phi analysis leaves: it has
    the same blocks with the same indices and neighbours, and the
    statements of a block are as they were or differ only in the aliases
    that [visit_import] overwrote; when no import of the function binds an
    alias, the graph is left exactly as it was handed in. *)
Theorem analysis_changes_only_aliases fuel arguments cfg scope phi cfg' :
  PhiAnalysis_new fuel arguments cfg scope = Ok (phi, cfg') →
  length cfg' = length cfg ∧
  (∀ i b b', cfg !! i = Some b → cfg' !! i = Some b' →
     idx b' = idx b ∧ predecessors b' = predecessors b ∧ successors b' = successors b ∧
     (body b' = body b ∨ body b' = visited_stmt <$> body b)) ∧
  ((∀ b, b ∈ cfg → alias_free b = true) → cfg' = cfg).
Proof.
  intros Hsettled%PhiAnalysis_new_settled. split_and!.
  - symmetry. by eapply Forall2_length.
  - intros i b b' Hb Hb'.
    destruct (settled_lookup _ _ _ _ Hsettled Hb') as (b0 & Hb0 & Hform).
    assert (b0 = b) as -> by congruence.
    destruct Hform as [-> | ->]; simpl; split_and!; auto.
  - intros Hfree. apply list_eq. intros i.
    destruct (cfg' !! i) as [b'|] eqn:Hb'.
    + destruct (settled_lookup _ _ _ _ Hsettled Hb') as (b & Hb & Hform).
      rewrite Hb. f_equal.
      destruct Hform as [-> | ->]; [done|].
      apply alias_free_visited_block, Hfree. by eapply list_elem_of_lookup_2.
    + symmetry. apply lookup_ge_None. apply lookup_ge_None in Hb'.
      by rewrite (Forall2_length _ _ _ Hsettled).
Qed.

(** [analysis_changes_only_aliases] on [diamond], which has no import. *)
Lemma analysis_changes_only_aliases_witness :
  length diamond = length diamond ∧
  (∀ i b b', diamond !! i = Some b → diamond !! i = Some b' →
     idx b' = idx b ∧ predecessors b' = predecessors b ∧ successors b' = successors b ∧
     (body b' = body b ∨ body b' = visited_stmt <$> body b)) ∧
  ((∀ b, b ∈ diamond → alias_free b = true) → diamond = diamond).
Proof.
  refine (analysis_changes_only_aliases 9 None diamond no_globals diamond_phis diamond _).
  vm_compute. reflexivity.
Defined.

(** ** Liveness on the graph the analysis leaves *)

Lemma isLiveAtEnd_loop_settled cfg cfg' name fuel :
  settled cfg cfg' →
  ∀ visited q,
    isLiveAtEnd_loop fuel cfg' name visited q = isLiveAtEnd_loop fuel cfg name visited q.
Proof.
  intros Hsettled. induction fuel as [|fuel IH]; intros visited q; simpl; [done|].
  destruct q as [|a q]; [done|].
  destruct (decide (a ∈ visited)); [apply IH|].
  unfold deref. destruct (cfg' !! a) as [b'|] eqn:Hb'.
  - destruct (settled_lookup _ _ _ _ Hsettled Hb') as (b & -> & Hform). simpl.
    assert (classify b' = classify b ∧ successors b' = successors b) as [-> ->].
    { destruct Hform as [-> | ->]; [done|]. split; [apply classify_visited|done]. }
    destruct (classify b) as [v| |]; simpl; [|done|done].
    destruct (decide (name ∈ _loads v)); [done|].
    destruct (decide (name ∈ _stores v)); apply IH.
  - apply lookup_ge_None in Hb'. rewrite <- (Forall2_length _ _ _ Hsettled) in Hb'.
    apply lookup_ge_None in Hb'. by rewrite Hb'.
Qed.

(** The liveness visitor does not look at aliases: on the graph that the
    construction of the phi analysis leaves, every liveness query has the
    answer it has on the graph that was handed in. *)
Theorem liveness_after_analysis fuel arguments cfg scope phi cfg' :
  PhiAnalysis_new fuel arguments cfg scope = Ok (phi, cfg') →
  ∀ fuel' name block,
    isLiveAtEnd fuel' cfg' name block = isLiveAtEnd fuel' cfg name block.
Proof.
  intros Hsettled%PhiAnalysis_new_settled fuel' name block.
  unfold isLiveAtEnd, deref. destruct (cfg' !! block) as [b'|] eqn:Hb'.
  - destruct (settled_lookup _ _ _ _ Hsettled Hb') as (b & -> & Hform). simpl.
    assert (successors b' = successors b) as -> by by destruct Hform as [-> | ->].
    destruct (decide (length (successors b) = 0)); [done|].
    by apply isLiveAtEnd_loop_settled.
  - apply lookup_ge_None in Hb'. rewrite <- (Forall2_length _ _ _ Hsettled) in Hb'.
    apply lookup_ge_None in Hb'. by rewrite Hb'.
Qed.

(** [liveness_after_analysis] on a function that imports [os] as [o] and
    then prints [o]. *)
Lemma liveness_after_analysis_witness :
  isLiveAtEnd 5 imported_then_used "o" 0 = isLiveAtEnd 5 imports_then_uses "o" 0.
Proof.
  refine (liveness_after_analysis 5 None imports_then_uses no_globals
            imports_then_uses_phis imported_then_used _ 5 "o"%string 0).
  vm_compute. reflexivity.
Defined.

(** ** The classification of a block, by first reference *)

Lemma bind_ret {A} (m : result A) : m ≫= Ok = m.
Proof. by destruct m. Qed.

Lemma foldM_flat_map {X Y Z} (f : Z → Y → result Z) (g : X → list Y) (l : list X) (z : Z) :
  foldM f (flat_map g l) z = foldM (λ z x, foldM f (g x) z) l z.
Proof.
  revert z. induction l as [|x l IH]; intros z; simpl; [done|].
  rewrite foldM_app. destruct (foldM f (g x) z); simpl; [apply IH|done|done].
Qed.

Lemma foldM_ext {X Z} (f g : Z → X → result Z) (l : list X) (z : Z) :
  Forall (λ x, ∀ z, f z x = g z x) l → foldM f l z = foldM g l z.
Proof.
  intros H. revert z. induction H as [|x l Hx _ IH]; intros z; simpl; [done|].
  rewrite Hx. destruct (g z x); simpl; [apply IH|done|done].
Qed.

Lemma replay_app l1 l2 v : replay (l1 ++ l2) v = replay l1 v ≫= replay l2.
Proof. apply foldM_app. Qed.

Lemma accept_expr_replay e : ∀ v, accept_expr e v = replay (expr_refs e) v.
Proof.
  induction e as [id ctx| value attr IH | value slice IH1 IH2 | elts IH | ops IH]
    using AST_expr_nested_ind; intros v; simpl.
  - unfold replay. simpl. by rewrite bind_ret.
  - apply IH.
  - rewrite replay_app, IH1. destruct (replay (expr_refs value) v); simpl; [apply IH2|done|done].
  - unfold replay. rewrite foldM_flat_map. by apply foldM_ext.
  - unfold replay. rewrite foldM_flat_map. by apply foldM_ext.
Qed.

Lemma accept_exprs_replay l v : accept_exprs l v = replay (flat_map expr_refs l) v.
Proof.
  unfold accept_exprs, replay. rewrite foldM_flat_map. apply foldM_ext.
  apply Forall_forall. intros e _ z. apply accept_expr_replay.
Qed.

Lemma accept_opt_replay o v : accept_opt o v = replay (from_option expr_refs [] o) v.
Proof. destruct o; simpl; [apply accept_expr_replay|done]. Qed.

Lemma accept_stmt_replay s v : accept_stmt v s = replay (stmt_refs s) v.
Proof.
  destruct s; simpl; try done;
    try apply accept_expr_replay; try apply accept_exprs_replay; try apply accept_opt_replay.
  - rewrite replay_app, accept_expr_replay.
    destruct (replay (expr_refs value) v); simpl; [apply accept_exprs_replay|done|done].
  - rewrite replay_app, accept_opt_replay.
    destruct (replay (from_option expr_refs [] dest) v); simpl;
      [apply accept_exprs_replay|done|done].
Qed.

Lemma classify_replay b : classify b = replay (block_refs b) LivenessBBVisitor_new.
Proof.
  unfold classify, block_refs, replay. rewrite foldM_flat_map. apply foldM_ext.
  apply Forall_forall. intros s _ v. apply accept_stmt_replay.
Qed.

Lemma first_ref_cons name id ctx l :
  first_ref name ((id, ctx) :: l) = if decide (id = name) then Some ctx else first_ref name l.
Proof.
  unfold first_ref. rewrite filter_cons. simpl. by destruct (decide (id = name)).
Qed.

Lemma replay_first_ref name l :
  ∀ v v', replay l v = Ok v' → _loads v ## _stores v →
    (name ∈ _loads v' ↔
       name ∈ _loads v ∨ ((name ∉ _stores v) ∧ first_ref name l = Some Load)) ∧
    (name ∈ _stores v' ↔
       name ∈ _stores v ∨ ((name ∉ _loads v) ∧ first_ref name l = Some Store)).
Proof.
  induction l as [|[id ctx] l IH]; intros v v'.
  - intros [= <-] _. unfold first_ref. simpl. naive_solver.
  - unfold replay. simpl. intros (v1 & H1 & H2)%bind_Ok Hdisj.
    rewrite first_ref_cons.
    destruct ctx; simpl in H1; try discriminate; injection H1 as <-.
    + destruct (IH _ _ H2) as [HL HS].
      { unfold _doLoad. case_decide; simpl; set_solver. }
      rewrite HL, HS. clear HL HS IH H2.
      unfold _doLoad. destruct (decide (id ∈ _stores v)); simpl;
        destruct (decide (id = name)) as [->|Hne]; set_solver.
    + destruct (IH _ _ H2) as [HL HS].
      { unfold _doStore. case_decide; simpl; set_solver. }
      rewrite HL, HS. clear HL HS IH H2.
      unfold _doStore. destruct (decide (id ∈ _loads v)); simpl;
        destruct (decide (id = name)) as [->|Hne]; set_solver.
Qed.

(** The read set of a block holds the names whose first reference in the
    block, in visit order, is a read; the write set holds the names whose
    first reference is a write.  An import is no reference. *)
Theorem classify_first_reference b v name :
  classify b = Ok v →
  (name ∈ _loads v ↔ first_ref name (block_refs b) = Some Load) ∧
  (name ∈ _stores v ↔ first_ref name (block_refs b) = Some Store).
Proof.
  rewrite classify_replay. intros H.
  destruct (replay_first_ref name _ _ _ H) as [HL HS]; [set_solver|].
  rewrite HL, HS. simpl. set_solver.
Qed.

(** [classify_first_reference] on a block that reads [x] before it
    assigns it and assigns [y] before it reads it. *)
Lemma classify_first_reference_witness :
  ("x" ∈ _loads {| _loads := {["x"]}; _stores := {["y"]} |}
   ↔ first_ref "x" (block_refs reads_then_writes) = Some Load) ∧
  ("x" ∈ _stores {| _loads := {["x"]}; _stores := {["y"]} |}
   ↔ first_ref "x" (block_refs reads_then_writes) = Some Store).
Proof.
  refine (classify_first_reference reads_then_writes
            {| _loads := {["x"]}; _stores := {["y"]} |} "x" _).
  vm_compute. reflexivity.
Defined.

(** ** What a liveness answer [true] means on any graph *)

Lemma isLiveAtEnd_loop_true cfg name fuel :
  ∀ visited q,
    isLiveAtEnd_loop fuel cfg name visited q = Ok true →
    ∃ l s, head l = Some s ∧ s ∈ q ∧ read_path cfg name l.
Proof.
  induction fuel as [|fuel IH]; intros visited q; simpl; [done|].
  destruct q as [|a q]; [done|].
  destruct (decide (a ∈ visited)).
  { intros (l & s & ? & ? & ?)%IH. exists l, s. split_and!; [done|by right|done]. }
  unfold deref. destruct (cfg !! a) as [b|] eqn:Hb; simpl; [|done].
  destruct (classify b) as [v| |] eqn:Hv; simpl; [|done|done].
  destruct (decide (name ∈ _loads v)) as [Hload|Hload].
  { intros _. exists [a], a. split_and!; [done|by left|].
    apply read_path_end. by exists b, v. }
  destruct (decide (name ∈ _stores v)) as [Hstore|Hstore].
  { intros (l & s & ? & ? & ?)%IH. exists l, s. split_and!; [done|by right|done]. }
  intros (l & s & Hh & [Hs|Hs]%elem_of_app & Hl)%IH.
  - exists l, s. split_and!; [done|by right|done].
  - exists (a :: l), a. split_and!; [done|by left|].
    destruct l as [|s' l]; [done|]. injection Hh as ->.
    apply read_path_step; [|by exists b|done].
    intros (b' & v' & Hb' & Hv' & Hin). congruence.
Qed.

Lemma isLiveAtEnd_loop_false cfg name fuel :
  ∀ visited q,
    (∀ i, i ∈ visited →
          ¬ reads cfg name i ∧
          (¬ writes_first cfg name i → ∀ j, edge cfg i j → j ∈ visited ∨ j ∈ q)) →
    isLiveAtEnd_loop fuel cfg name visited q = Ok false →
    ¬ ∃ l s, head l = Some s ∧ s ∈ q ∧ read_path cfg name l.
Proof.
  induction fuel as [|fuel IH]; intros visited q Hinv; simpl; [done|].
  destruct q as [|a q].
  { intros _ (l & s & _ & Hs & _). by apply elem_of_nil in Hs. }
  destruct (decide (a ∈ visited)) as [Ha|Ha].
  { assert (∀ i, i ∈ visited →
              ¬ reads cfg name i ∧
              (¬ writes_first cfg name i → ∀ j, edge cfg i j → j ∈ visited ∨ j ∈ q)) as Hinv'.
    { intros i Hi. destruct (Hinv i Hi) as [Hnr Hsucc]. split; [done|].
      intros Hw j He. destruct (Hsucc Hw j He) as [?|Hj]; [by left|].
      apply elem_of_cons in Hj as [->|?]; [by left|by right]. }
    intros Hrun (l & s & Hh & Hs & Hl). apply (IH visited q Hinv' Hrun).
    apply elem_of_cons in Hs as [->|Hs]; [|by exists l, s].
    by eapply (read_path_from_visited cfg name visited q). }
  unfold deref. destruct (cfg !! a) as [b|] eqn:Hb; simpl; [|done].
  destruct (classify b) as [v| |] eqn:Hv; simpl; [|done|done].
  destruct (decide (name ∈ _loads v)) as [Hload|Hload]; [done|].
  assert (¬ reads cfg name a) as Hnr.
  { intros (b' & v' & Hb' & Hv' & Hin). congruence. }
  destruct (decide (name ∈ _stores v)) as [Hstore|Hstore].
  - intros Hrun (l & s & Hh & Hs & Hl). apply (IH ({[a]} ∪ visited) q); [|exact Hrun|].
    + intros i Hi. apply elem_of_union in Hi as [->%elem_of_singleton|Hi].
      * split; [done|]. intros Hw. exfalso. apply Hw. by exists b, v.
      * destruct (Hinv i Hi) as [Hnri Hsucc]. split; [done|].
        intros Hw j He. destruct (Hsucc Hw j He) as [?|Hj]; [left; set_solver|].
        apply elem_of_cons in Hj as [->|?]; [left; set_solver|by right].
    + apply elem_of_cons in Hs as [->|Hs]; [|by exists l, s].
      exfalso. inversion Hl as [i Hr' Heq|i j l' Hw He Hl' Heq]; subst;
        injection Hh as <-; [done|]. apply Hw. by exists b, v.
  - intros Hrun (l & s & Hh & Hs & Hl).
    apply (IH ({[a]} ∪ visited) (q ++ successors b)); [|exact Hrun|].
    + intros i Hi. apply elem_of_union in Hi as [->%elem_of_singleton|Hi].
      * split; [done|]. intros _ j (b' & Hb' & Hj). right.
        apply elem_of_app. right. congruence.
      * destruct (Hinv i Hi) as [Hnri Hsucc]. split; [done|].
        intros Hw j He. destruct (Hsucc Hw j He) as [?|Hj]; [left; set_solver|].
        apply elem_of_cons in Hj as [->|?]; [left; set_solver|].
        right. apply elem_of_app. by left.
    + apply elem_of_cons in Hs as [->|Hs].
      * inversion Hl as [i Hr' Heq|i j l' Hw He Hl' Heq]; subst;
          injection Hh as <-; [done|].
        exists (j :: l'), j. split_and!; [done| |done].
        apply elem_of_app. right. destruct He as (b' & Hb' & Hj). congruence.
      * exists l, s. split_and!; [done| |done]. apply elem_of_app. by left.
Qed.

(** Whatever the graph and the fuel, dangling pointers and untagged names
    included: when [isLiveAtEnd] returns, its answer is right.  It is
    [true] exactly when the block has a successor from which a forward
    path leads to a block that has [name] in its read set, through blocks
    that do not have [name] in their write set. *)
Theorem isLiveAtEnd_answer_right fuel cfg name block r :
  isLiveAtEnd fuel cfg name block = Ok r →
  ∃ b, cfg !! block = Some b ∧
       (r = true ↔ ∃ l s, head l = Some s ∧ s ∈ successors b ∧ read_path cfg name l).
Proof.
  unfold isLiveAtEnd, deref. destruct (cfg !! block) as [b|]; simpl; [|done].
  intros Hrun. exists b. split; [done|].
  destruct (decide (length (successors b) = 0)) as [Hz|Hz].
  - injection Hrun as <-. split; [done|]. intros (l & s & _ & Hs & _).
    destruct (successors b); [by apply elem_of_nil in Hs|done].
  - destruct r.
    + split; [|done]. intros _. by eapply isLiveAtEnd_loop_true.
    + split; [done|]. intros Hpath. exfalso.
      eapply isLiveAtEnd_loop_false; [|exact Hrun|exact Hpath]. set_solver.
Qed.

(** [isLiveAtEnd_answer_right] on the graph that imports [os] as [o] and
    prints [o]. *)
Lemma isLiveAtEnd_answer_right_witness :
  ∃ b, imports_then_uses !! 0 = Some b ∧
       (true = true ↔ ∃ l s, head l = Some s ∧ s ∈ successors b ∧
                             read_path imports_then_uses "o" l).
Proof.
  refine (isLiveAtEnd_answer_right 5 imports_then_uses "o" 0 true _).
  vm_compute. reflexivity.
Defined.

(** ** Queries and the entries they insert *)

Lemma default_insert_default `{Countable K} {V} (m : gmap K V) (d : V) (k k' : K) :
  default d (<[k := default d (m !! k)]> m !! k') = default d (m !! k').
Proof.
  destruct (decide (k = k')) as [->|Hne].
  - by rewrite lookup_insert_eq.
  - by rewrite lookup_insert_ne.
Qed.

Lemma same_answers_refl phi : same_answers phi phi.
Proof. by repeat split. Qed.

Lemma same_answers_trans phi1 phi2 phi3 :
  same_answers phi1 phi2 → same_answers phi2 phi3 → same_answers phi1 phi3.
Proof.
  intros (H1 & H2 & H3 & H4) (G1 & G2 & G3 & G4).
  split_and!; intros; etrans; eauto.
Qed.

Lemma isRequired_same_answers name block phi : same_answers phi (isRequired name block phi).2.
Proof.
  split_and!; simpl; try done. intros k. by rewrite default_insert_default.
Qed.

Lemma getAllDefinedAt_same_answers block phi : same_answers phi (getAllDefinedAt block phi).2.
Proof.
  split_and!; simpl; try done. intros k. by rewrite default_insert_default.
Qed.

Lemma isDefinedAt_same_results name block da k :
  default ∅ (results (isDefinedAt name block da).2 !! k) = default ∅ (results da !! k).
Proof.
  unfold isDefinedAt. destruct (default ∅ (results da !! block) !! name); simpl;
    by rewrite default_insert_default.
Qed.

Lemma isDefinedAt_same_rest name block da :
  defined (isDefinedAt name block da).2 = defined da ∧
  scope_info (isDefinedAt name block da).2 = scope_info da.
Proof. unfold isDefinedAt. by destruct (default ∅ (results da !! block) !! name). Qed.

Lemma isDefinedAt_answer name block da :
  (isDefinedAt name block da).1
  = default Undefined (default ∅ (results da !! block) !! name).
Proof. unfold isDefinedAt. by destruct (default ∅ (results da !! block) !! name). Qed.

Lemma getAllRequiredAfter_same_answers cfg block phi x phi' :
  getAllRequiredAfter cfg block phi = Ok (x, phi') → same_answers phi phi'.
Proof.
  unfold getAllRequiredAfter. intros (b & _ & H)%bind_Ok.
  destruct (decide (length (successors b) = 0)).
  { injection H as _ <-. apply same_answers_refl. }
  apply bind_Ok in H as (s0 & _ & [= _ <-]).
  split_and!; simpl; try done. intros k. by rewrite default_insert_default.
Qed.

Lemma isRequiredAfter_same_answers cfg name block phi x phi' :
  isRequiredAfter cfg name block phi = Ok (x, phi') → same_answers phi phi'.
Proof.
  unfold isRequiredAfter. intros (b & _ & H)%bind_Ok.
  destruct (decide (length (successors b) ≠ 1)).
  { injection H as _ <-. apply same_answers_refl. }
  apply bind_Ok in H as (s0 & _ & [= _ <-]). apply (isRequired_same_answers name s0 phi).
Qed.

Lemma isPotentiallyUndefinedAfter_same_answers cfg name block phi x phi' :
  isPotentiallyUndefinedAfter cfg name block phi = Ok (x, phi') → same_answers phi phi'.
Proof.
  unfold isPotentiallyUndefinedAfter. intros (b & _ & H)%bind_Ok.
  destruct (decide (0 < length (successors b))); [|done].
  apply bind_Ok in H as (s0 & _ & H). simpl in H.
  destruct (decide ((isDefinedAt name s0 (definedness phi)).1 ≠ Undefined)); [|done].
  injection H as _ <-.
  destruct (isDefinedAt_same_rest name s0 (definedness phi)) as [Hd Hs].
  split_and!; simpl; try done.
  - intros k. by rewrite isDefinedAt_same_results.
  - intros k. by rewrite Hd.
Qed.

(** The queries insert default entries into the tables of the analysis
    object ([operator[]] on a key that is absent), and no answer depends
    on them: two objects whose tables agree up to such entries answer all
    five queries alike, stops included, and each query leaves such an
    object again. *)
Theorem queries_keep_answers cfg phi phi' :
  same_answers phi phi' →
  (∀ name block,
     (isRequired name block phi').1 = (isRequired name block phi).1 ∧
     same_answers phi (isRequired name block phi').2) ∧
  (∀ block,
     (getAllDefinedAt block phi').1 = (getAllDefinedAt block phi).1 ∧
     same_answers phi (getAllDefinedAt block phi').2) ∧
  (∀ block,
     answer (getAllRequiredAfter cfg block phi') = answer (getAllRequiredAfter cfg block phi) ∧
     ∀ x phi'', getAllRequiredAfter cfg block phi' = Ok (x, phi'') → same_answers phi phi'') ∧
  (∀ name block,
     answer (isRequiredAfter cfg name block phi') = answer (isRequiredAfter cfg name block phi) ∧
     ∀ x phi'', isRequiredAfter cfg name block phi' = Ok (x, phi'') → same_answers phi phi'') ∧
  (∀ name block,
     answer (isPotentiallyUndefinedAfter cfg name block phi')
     = answer (isPotentiallyUndefinedAfter cfg name block phi) ∧
     ∀ x phi'', isPotentiallyUndefinedAfter cfg name block phi' = Ok (x, phi'') →
                same_answers phi phi'').
Proof.
  intros Hsame. pose proof Hsame as (Hscope & Hresults & Hdefined & Hphis).
  split_and!.
  - intros name block. split.
    + simpl. by rewrite Hphis.
    + eapply same_answers_trans; [exact Hsame|].
      apply (isRequired_same_answers name block phi').
  - intros block. split.
    + simpl. by rewrite Hdefined.
    + eapply same_answers_trans; [exact Hsame|].
      apply (getAllDefinedAt_same_answers block phi').
  - intros block. split.
    + unfold answer, getAllRequiredAfter. destruct (deref cfg block) as [b| |]; simpl; [|done|done].
      destruct (decide (length (successors b) = 0)); [done|].
      destruct (successors b !! 0); simpl; [|done]. by rewrite Hphis.
    + intros x phi'' H. eapply same_answers_trans; [exact Hsame|].
      by eapply getAllRequiredAfter_same_answers.
  - intros name block. split.
    + unfold answer, isRequiredAfter. destruct (deref cfg block) as [b| |]; simpl; [|done|done].
      destruct (decide (length (successors b) ≠ 1)); [done|].
      destruct (successors b !! 0); simpl; [|done]. by rewrite Hphis.
    + intros x phi'' H. eapply same_answers_trans; [exact Hsame|].
      by eapply isRequiredAfter_same_answers.
  - intros name block. split.
    + unfold answer, isPotentiallyUndefinedAfter.
      destruct (deref cfg block) as [b| |]; simpl; [|done|done].
      destruct (decide (0 < length (successors b))); [|done].
      destruct (successors b !! 0) as [s0|]; simpl; [|done].
      rewrite !isDefinedAt_answer, Hresults.
      by destruct (decide (_ ≠ Undefined)).
    + intros x phi'' H. eapply same_answers_trans; [exact Hsame|].
      by eapply isPotentiallyUndefinedAfter_same_answers.
Qed.

(** [queries_keep_answers] on [diamond], for the analysis object as the
    constructor leaves it and as a query about block 0 leaves it. *)
Lemma queries_keep_answers_witness :
  (∀ name block,
     (isRequired name block diamond_phis_asked).1 = (isRequired name block diamond_phis).1 ∧
     same_answers diamond_phis (isRequired name block diamond_phis_asked).2) ∧
  (∀ block,
     (getAllDefinedAt block diamond_phis_asked).1 = (getAllDefinedAt block diamond_phis).1 ∧
     same_answers diamond_phis (getAllDefinedAt block diamond_phis_asked).2) ∧
  (∀ block,
     answer (getAllRequiredAfter diamond block diamond_phis_asked)
     = answer (getAllRequiredAfter diamond block diamond_phis) ∧
     ∀ x phi'', getAllRequiredAfter diamond block diamond_phis_asked = Ok (x, phi'') →
                same_answers diamond_phis phi'') ∧
  (∀ name block,
     answer (isRequiredAfter diamond name block diamond_phis_asked)
     = answer (isRequiredAfter diamond name block diamond_phis) ∧
     ∀ x phi'', isRequiredAfter diamond name block diamond_phis_asked = Ok (x, phi'') →
                same_answers diamond_phis phi'') ∧
  (∀ name block,
     answer (isPotentiallyUndefinedAfter diamond name block diamond_phis_asked)
     = answer (isPotentiallyUndefinedAfter diamond name block diamond_phis) ∧
     ∀ x phi'', isPotentiallyUndefinedAfter diamond name block diamond_phis_asked = Ok (x, phi'') →
                same_answers diamond_phis phi'').
Proof.
  refine (queries_keep_answers diamond diamond_phis diamond_phis_asked _).
  apply (isRequired_same_answers "x" 0 diamond_phis).
Defined.

(** ** Where the construction of the phi analysis can stop *)

Lemma classify_Fatal b e : classify b = Fatal e → e = assert_ctx_type.
Proof.
  pose proof (foldM_Fatal_first accept_stmt stmt_tagged assert_ctx_type (body b)
                (λ v s _, accept_stmt_tagged s v) LivenessBBVisitor_new) as H.
  unfold classify. destruct (forallb stmt_tagged (body b)).
  - destruct H as [v ->]. done.
  - rewrite H. by intros [= <-].
Qed.

Lemma isLiveAtEnd_loop_Fatal cfg name fuel :
  ∀ visited q e,
    isLiveAtEnd_loop fuel cfg name visited q = Fatal e →
    e = assert_ctx_type ∨ e = bad_block_pointer.
Proof.
  induction fuel as [|fuel IH]; intros visited q e; simpl; [done|].
  destruct q as [|a q]; [done|].
  destruct (decide (a ∈ visited)); [apply IH|].
  unfold deref. destruct (cfg !! a) as [b|]; simpl; [|intros [= <-]; by right].
  destruct (classify b) as [v| |] eqn:Hv; simpl; [| |done].
  - destruct (decide (name ∈ _loads v)); [done|].
    destruct (decide (name ∈ _stores v)); apply IH.
  - intros [= <-]. left. by eapply classify_Fatal.
Qed.

Lemma isLiveAtEnd_Fatal fuel cfg name block e :
  isLiveAtEnd fuel cfg name block = Fatal e →
  e = assert_ctx_type ∨ e = bad_block_pointer.
Proof.
  unfold isLiveAtEnd, deref. destruct (cfg !! block) as [b|]; simpl; [|intros [= <-]; by right].
  destruct (decide (length (successors b) = 0)); [done|]. apply isLiveAtEnd_loop_Fatal.
Qed.

(** A round of the constructor's loop over the blocks stops only inside a
    liveness query: for a block with two or more predecessors and a name
    of its filtered name set, the query at the first predecessor met an
    untagged name or a dangling block pointer.  The assertion that a
    block with defined names has a predecessor is never what stops it:
    blocks with fewer than two predecessors are skipped before it. *)
Theorem phi_block_stops fuel cfg st ib e :
  phi_block fuel cfg st ib = Fatal e →
  e ≠ assert_has_predecessor ∧
  (e = assert_ctx_type ∨ e = bad_block_pointer) ∧
  2 ≤ length (predecessors ib.2) ∧
  ∃ pred0 name,
    predecessors ib.2 !! 0 = Some pred0 ∧
    name ∈ (getDefinedNamesAt ib.1 st.1).1 ∧
    isLiveAtEnd fuel cfg name pred0 = Fatal e.
Proof.
  unfold phi_block.
  destruct (decide (length (predecessors ib.2) < 2)) as [Hlt|Hge]; [done|].
  rewrite decide_False by lia. simpl.
  destruct (predecessors ib.2 !! 0) as [pred0|] eqn:Hpred0; simpl.
  - intros [Hloop|(required & _ & [=])]%bind_Fatal.
    apply foldM_Fatal in Hloop as (required & name & Hname & Hquery).
    unfold required_at in Hquery.
    apply bind_Fatal in Hquery as [Hquery|(live & _ & [=])].
    pose proof (isLiveAtEnd_Fatal _ _ _ _ _ Hquery) as He.
    split_and!; [by destruct He as [-> | ->]|done|lia|].
    exists pred0, name. split_and!; [done| |done].
    by apply elem_of_elements in Hname.
  - apply lookup_ge_None in Hpred0. lia.
Qed.

(** [phi_block_stops] on the join block of [untagged_join]. *)
Lemma phi_block_stops_witness :
  assert_ctx_type ≠ assert_has_predecessor ∧
  (assert_ctx_type = assert_ctx_type ∨ assert_ctx_type = bad_block_pointer) ∧
  2 ≤ length [0; 0] ∧
  ∃ pred0 name,
    [0; 0] !! 0 = Some pred0 ∧
    name ∈ (getDefinedNamesAt 1 x_defined_at_1).1 ∧
    isLiveAtEnd 5 untagged_join name pred0 = Fatal assert_ctx_type.
Proof.
  refine (phi_block_stops 5 untagged_join (x_defined_at_1, ∅)
            (1, {| idx := 1; body := [AST_Expr (AST_Name "x" Del)];
                   predecessors := [0; 0]; successors := [] |})
            assert_ctx_type _).
  vm_compute. reflexivity.
Defined.

(** ** The join of two levels *)

(** [merge] returns exactly on two levels other than [Undefined], and
    never returns [Undefined]; where it returns it is commutative,
    associative and idempotent, with [PotentiallyDefined] absorbing;
    [mergeBlank] is [merge] with [PotentiallyDefined]. *)
Theorem merge_is_a_join :
  (∀ a b, (∃ r, DefinednessBBAnalyzer.merge a b = Ok r) ↔ a ≠ Undefined ∧ b ≠ Undefined) ∧
  (∀ a b r, DefinednessBBAnalyzer.merge a b = Ok r →
            r ≠ Undefined ∧ DefinednessBBAnalyzer.merge b a = Ok r) ∧
  (∀ a, a ≠ Undefined → DefinednessBBAnalyzer.merge a a = Ok a) ∧
  (∀ a, a ≠ Undefined →
        DefinednessBBAnalyzer.merge PotentiallyDefined a = Ok PotentiallyDefined) ∧
  (∀ a b c r,
     DefinednessBBAnalyzer.merge a b ≫= (λ x, DefinednessBBAnalyzer.merge x c) = Ok r ↔
     DefinednessBBAnalyzer.merge b c ≫= (λ y, DefinednessBBAnalyzer.merge a y) = Ok r) ∧
  (∀ into r, DefinednessBBAnalyzer.mergeBlank into = Ok r ↔
             DefinednessBBAnalyzer.merge PotentiallyDefined into = Ok r).
Proof.
  split_and!.
  - intros [] []; vm_compute; split;
      try (intros [r [=]]); try (intros [? ?]; congruence); try (by eauto).
  - intros [] [] r; vm_compute; intros [= <-]; by split.
  - by intros [].
  - by intros [].
  - intros [] [] [] r; vm_compute; split; congruence.
  - intros [] r; vm_compute; split; congruence.
Qed.

(** ** The two queries about a block's successors *)

(** For a block with exactly one successor the two queries agree: a name
    is required after the block exactly when it is in the set that
    [getAllRequiredAfter] returns, and both leave the same analysis
    object. *)
Theorem single_successor_queries_agree cfg name block b s phi :
  cfg !! block = Some b → successors b = [s] →
  ∃ set phi',
    getAllRequiredAfter cfg block phi = Ok (set, phi') ∧
    isRequiredAfter cfg name block phi = Ok (bool_decide (name ∈ set), phi') ∧
    set = default ∅ (required_phis phi !! s).
Proof.
  intros Hb Hs. unfold getAllRequiredAfter, isRequiredAfter, deref.
  rewrite Hb. simpl. rewrite Hs. simpl. by eexists _, _.
Qed.

(** [single_successor_queries_agree] after the assigning arm of
    [diamond]. *)
Lemma single_successor_queries_agree_witness :
  ∃ set phi',
    getAllRequiredAfter diamond 1 diamond_phis = Ok (set, phi') ∧
    isRequiredAfter diamond "x" 1 diamond_phis = Ok (bool_decide ("x" ∈ set), phi') ∧
    set = default ∅ (required_phis diamond_phis !! 3).
Proof.
  refine (single_successor_queries_agree diamond "x" 1 _ 3 diamond_phis eq_refl eq_refl).
Defined.
